(** * small-talk backend: storage.js and socket.js

    A shallow embedding of the two stateful modules of the backend:
    - [Storage]: the in-memory voice message store (storage.js);
    - [Socket]:  the Socket.IO event handlers and the room registry
                 (socket.js).

    JavaScript [Map]s that are only read by key are [gmap]s; the [Set] of
    user objects kept per room is an insertion-ordered list (every [add]
    inserts a fresh object, so duplicates are possible and order is
    observable through [Array.from]).  Clock readings ([Date.now()]) and
    random draws ([Math.random()]) are inputs of the handlers. *)

From Stdlib Require Import ZArith String List DecimalString DecimalNat.
From stdpp Require Import gmap strings list fin_maps.

#[local] Set Warnings "-clear-no-such-hyp".

Local Open Scope Z_scope.
Local Open Scope string_scope.

(** ** Shared vocabulary *)

(** [console.log] and [console.warn] lines. *)
Inductive LogLevel := LevelLog | LevelWarn.

Record LogLine := { level : LogLevel; line : string }.

Definition log_line (s : string) : LogLine := {| level := LevelLog; line := s |}.
Definition warn_line (s : string) : LogLine := {| level := LevelWarn; line := s |}.

(** What a call evaluates to for its caller.  A function body without a
    [return] statement evaluates to [undefined]. *)
Inductive JsReturn :=
| JsUndefined
| JsNumber (n : nat).

(** Template-literal rendering of integers:  `${n}`. *)
Definition show_nat (n : nat) : string := NilZero.string_of_uint (Nat.to_uint n).
Definition show_Z (z : Z) : string := NilZero.string_of_int (Z.to_int z).

(** ** storage.js *)

Module Storage.

(** { buffer: Buffer, mimeType: string, timestamp: number } *)
Record VoiceRecord := {
  buffer : list Byte.byte;
  mimeType : string;
  timestamp : Z
}.

(** The module state: the [voiceMessages] map, and the console it writes to. *)
Record Store := {
  voiceMessages : gmap string VoiceRecord;
  console : list LogLine
}.

Definition empty : Store := {| voiceMessages := ∅; console := [] |}.

(** storeVoiceMessage(messageId, buffer, mimeType); [now] is [Date.now()]. *)
Definition storeVoiceMessage (messageId : string) (buf : list Byte.byte)
    (mime : string) (now : Z) (st : Store) : Store :=
  {| voiceMessages :=
       <[messageId := {| buffer := buf; mimeType := mime; timestamp := now |}]>
         (voiceMessages st);
     console := console st ++
       [log_line ("[Storage] Stored voice message: " +:+ messageId +:+ " ("
                  +:+ show_nat (length buf) +:+ " bytes)")] |}.

(** getVoiceMessage(messageId): [voiceMessages.get(messageId) || null].
    Records are objects, hence truthy: [None] stands for [null].  The
    store is threaded through to make its (absent) effect visible. *)
Definition getVoiceMessage (messageId : string) (st : Store)
    : option VoiceRecord * Store :=
  (voiceMessages st !! messageId, st).

(** 24 * 60 * 60 * 1000 *)
Definition maxAge : Z := 24 * 60 * 60 * 1000.

(** The test of the loop body: [now - data.timestamp > maxAge]. *)
Definition expired (now : Z) (data : VoiceRecord) : bool :=
  bool_decide (now - timestamp data > maxAge).

(** One iteration of the [for ... of voiceMessages.entries()] loop,
    on the pair (map, deletedCount). *)
Definition sweep_entry (now : Z)
    (acc : gmap string VoiceRecord * nat) (e : string * VoiceRecord)
    : gmap string VoiceRecord * nat :=
  if expired now e.2 then (delete e.1 acc.1, S acc.2) else acc.

(** The map component of one iteration, on its own. *)
Definition sweep_map (now : Z) (m : gmap string VoiceRecord) (e : string * VoiceRecord)
    : gmap string VoiceRecord :=
  if expired now e.2 then delete e.1 m else m.

(** The whole loop.  Deleting the entry being visited does not disturb a
    [Map] iterator, so every entry of the map is visited once. *)
Definition sweep_loop (now : Z) (m : gmap string VoiceRecord)
    : gmap string VoiceRecord * nat :=
  foldl (sweep_entry now) (m, 0%nat) (map_to_list m).

(** cleanupOldMessages(); [now] is the [Date.now()] read on entry.  The
    body ends without a [return]: the count only reaches the console. *)
Definition cleanupOldMessages (now : Z) (st : Store) : JsReturn * Store :=
  let '(m, deletedCount) := sweep_loop now (voiceMessages st) in
  (JsUndefined,
   {| voiceMessages := m;
      console :=
        if (0 <? deletedCount)%nat
        then console st ++
             [log_line ("[Storage] Cleaned up " +:+ show_nat deletedCount
                        +:+ " old voice messages")]
        else console st |}).

(** The records a sweep at time [now] finds too old, and those it keeps. *)
Definition stale (now : Z) (m : gmap string VoiceRecord) : gmap string VoiceRecord :=
  filter (λ e, now - timestamp e.2 > maxAge) m.
Definition fresh (now : Z) (m : gmap string VoiceRecord) : gmap string VoiceRecord :=
  filter (λ e, ¬ now - timestamp e.2 > maxAge) m.

End Storage.

(** ** socket.js *)

Module Socket.

(** One element of a room's [Set]: { socketId, nickname }. *)
Record User := { socketId : string; nickname : string }.

Inductive MessageType := text | voice.

(** The object broadcast as 'new-message'; [content] is present on text
    messages, [url] and [duration] on voice messages. *)
Record Message := {
  msg_id : string;
  msg_type : MessageType;
  msg_content : option string;
  msg_url : option string;
  msg_duration : option Z;
  msg_nickname : string;
  msg_timestamp : Z
}.

(** Event name and argument of an [emit]. *)
Inductive Event :=
| nickname_assigned (n : string)
| user_joined (n : string) (timestamp : Z)
| user_left (n : string) (timestamp : Z)
| participants_list (participants : list string)
| new_message (message : Message).

(** The three ways the handlers address an [emit]. *)
Inductive Target :=
| to_socket (sid : string)                 (* socket.emit(...)             *)
| to_room_except (roomId sid : string)     (* socket.to(roomId).emit(...)  *)
| to_room (roomId : string).               (* io.to(roomId).emit(...)      *)

(** One [emit] as it left the server: how it was addressed, the sockets
    Socket.IO resolved the address to at that moment, what was sent, and
    the contents of [rooms] at that moment. *)
Record Emission := {
  target : Target;
  recipients : gset string;
  event : Event;
  registry : gmap string (list User)
}.

(** [let currentRoom = null; let currentNickname = null;] of one connection. *)
Record Session := {
  currentRoom : option string;
  currentNickname : option string
}.

(** [adapter] is Socket.IO's view of the rooms: those the handlers put
    sockets in with [socket.join], and the room Socket.IO itself keeps for
    every socket under the socket's own id. *)
Record World := {
  rooms : gmap string (list User);       (* const rooms = new Map()          *)
  adapter : gmap string (gset string);   (* Socket.IO's rooms: name -> sockets *)
  sessions : gmap string Session;        (* live connections, by socket.id   *)
  outbox : list Emission;                (* every emit so far, oldest first  *)
  console : list LogLine
}.

(** The world once [initializeSocketHandlers(io)] has returned. *)
Definition initial : World :=
  {| rooms := ∅; adapter := ∅; sessions := ∅; outbox := [];
     console := [log_line "[Socket] Event handlers initialized"] |}.

(** *** Field updates *)

Definition with_rooms (f : gmap string (list User) → gmap string (list User))
    (w : World) : World :=
  {| rooms := f (rooms w); adapter := adapter w; sessions := sessions w;
     outbox := outbox w; console := console w |}.

Definition with_adapter (f : gmap string (gset string) → gmap string (gset string))
    (w : World) : World :=
  {| rooms := rooms w; adapter := f (adapter w); sessions := sessions w;
     outbox := outbox w; console := console w |}.

Definition with_sessions (f : gmap string Session → gmap string Session)
    (w : World) : World :=
  {| rooms := rooms w; adapter := adapter w; sessions := f (sessions w);
     outbox := outbox w; console := console w |}.

Definition console_log (s : string) (w : World) : World :=
  {| rooms := rooms w; adapter := adapter w; sessions := sessions w;
     outbox := outbox w; console := console w ++ [log_line s] |}.

Definition console_warn (s : string) (w : World) : World :=
  {| rooms := rooms w; adapter := adapter w; sessions := sessions w;
     outbox := outbox w; console := console w ++ [warn_line s] |}.

(** *** Socket.IO *)

Definition members (ad : gmap string (gset string)) (roomId : string) : gset string :=
  default ∅ (ad !! roomId).

(** socket.join(roomId) *)
Definition socket_join (roomId sid : string) (ad : gmap string (gset string)) :=
  <[roomId := members ad roomId ∪ {[sid]}]> ad.

(** socket.leave(roomId) *)
Definition socket_leave (roomId sid : string) (ad : gmap string (gset string)) :=
  <[roomId := members ad roomId ∖ {[sid]}]> ad.

(** What Socket.IO does to a closing socket before it fires 'disconnect'. *)
Definition leave_all (sid : string) (ad : gmap string (gset string)) :=
  (λ socks, socks ∖ {[sid]}) <$> ad.

(** [socket.emit] goes to the socket itself; [io.to(room)] to the sockets
    in the room; [socket.to(room)] to the sockets in the room that are not
    in the room named [socket.id]. *)
Definition resolve (ad : gmap string (gset string)) (t : Target) : gset string :=
  match t with
  | to_socket sid => {[sid]}
  | to_room_except roomId sid => members ad roomId ∖ members ad sid
  | to_room roomId => members ad roomId
  end.

Definition emit (t : Target) (e : Event) (w : World) : World :=
  {| rooms := rooms w; adapter := adapter w; sessions := sessions w;
     outbox := outbox w ++
       [{| target := t; recipients := resolve (adapter w) t; event := e;
           registry := rooms w |}];
     console := console w |}.

(** *** JavaScript truthiness of the closure variables *)

(** [null] and the empty string are falsy. *)
Definition truthy (v : option string) : bool :=
  match v with
  | Some s => if decide (s = "") then false else true
  | None => false
  end.

(** The guard of the send and disconnect handlers,
    [currentRoom && currentNickname], with the two values when it passes. *)
Definition joined (s : Session) : option (string * string) :=
  match currentRoom s, currentNickname s with
  | Some r, Some n =>
      if truthy (Some r) && truthy (Some n) then Some (r, n) else None
  | _, _ => None
  end.

(** *** generateNickname *)

Definition prefixes : list string := ["User"; "Guest"; "Visitor"; "Friend"; "Member"].

(** [pick] is [Math.floor(Math.random() * prefixes.length)] and [draw] is
    [Math.floor(Math.random() * 9000)]; an index outside the array would
    render as "undefined". *)
Definition generateNickname (pick draw : nat) : string :=
  nth pick prefixes "undefined" +:+ show_nat (draw + 1000).

(** *** removeUserFromRoom *)

Definition room_of (rs : gmap string (list User)) (roomId : string) : list User :=
  default [] (rs !! roomId).

(** [for (const user of room) if (user.socketId === socketId)
     { room.delete(user); break; }] *)
Fixpoint delete_first (sid : string) (room : list User) : list User :=
  match room with
  | [] => []
  | user :: rest =>
      if decide (socketId user = sid) then rest
      else user :: delete_first sid rest
  end.

Definition removeUserFromRoom (roomId sid : string) (w : World) : World :=
  match rooms w !! roomId with
  | Some room =>
      let room' := delete_first sid room in
      let w' := with_rooms (insert roomId room') w in
      if (length room' =? 0)%nat
      then console_log ("[Socket] Room " +:+ roomId +:+ " is now empty and removed")
             (with_rooms (delete roomId) w')
      else w'
  | None => w
  end.

(** *** The handlers *)

(** io.on('connection', ...): Socket.IO has put the socket in the room
    named by its id; the callback makes a new closure with both variables
    [null].  Socket ids are unique among live connections. *)
Definition on_connection (sid : string) (w : World) : World :=
  match sessions w !! sid with
  | Some _ => w
  | None =>
      console_log ("[Socket] Client connected: " +:+ sid)
        (with_sessions (insert sid {| currentRoom := None; currentNickname := None |})
           (with_adapter (socket_join sid sid) w))
  end.

(** The [if (currentRoom) { ... }] block of 'join-room'. *)
Definition leave_previous (sid : string) (s : Session) (w : World) : World :=
  match currentRoom s with
  | Some cr =>
      if truthy (Some cr)
      then removeUserFromRoom cr sid (with_adapter (socket_leave cr sid) w)
      else w
  | None => w
  end.

(** [if (!rooms.has(roomId)) rooms.set(roomId, new Set());
     rooms.get(roomId).add({ socketId, nickname })] *)
Definition add_user (roomId : string) (u : User) (rs : gmap string (list User)) :=
  let rs' := match rs !! roomId with Some _ => rs | None => <[roomId := []]> rs end in
  <[roomId := (room_of rs' roomId ++ [u])%list]> rs'.

(** socket.on('join-room', (roomId) => ...) *)
Definition on_join_room (sid roomId : string) (pick draw : nat) (now : Z)
    (w : World) : World :=
  match sessions w !! sid with
  | None => w
  | Some s =>
      let w1 := leave_previous sid s w in
      let nick := generateNickname pick draw in
      let w2 := with_sessions
                  (insert sid {| currentRoom := Some roomId;
                                 currentNickname := Some nick |}) w1 in
      let w3 := with_adapter (socket_join roomId sid) w2 in
      let w4 := with_rooms (add_user roomId {| socketId := sid; nickname := nick |}) w3 in
      let w5 := console_log ("[Socket] " +:+ nick +:+ " (" +:+ sid
                             +:+ ") joined room: " +:+ roomId) w4 in
      let w6 := emit (to_socket sid) (nickname_assigned nick) w5 in
      let w7 := emit (to_room_except roomId sid) (user_joined nick now) w6 in
      let participants := nickname <$> room_of (rooms w7) roomId in
      emit (to_socket sid) (participants_list participants) w7
  end.

(** socket.on('send-message', (data) => ...) with [data.content] a string;
    [tId] and [ts] are the two [Date.now()] readings and [rnd] is
    [Math.random().toString(36).substr(2, 9)]. *)
Definition on_send_message (sid content : string) (tId : Z) (rnd : string) (ts : Z)
    (w : World) : World :=
  match sessions w !! sid with
  | None => w
  | Some s =>
      match joined s with
      | None => console_warn ("[Socket] Message from unjoined user: " +:+ sid) w
      | Some (room, nick) =>
          let message :=
            {| msg_id := "msg-" +:+ show_Z tId +:+ "-" +:+ rnd;
               msg_type := text;
               msg_content := Some content;
               msg_url := None;
               msg_duration := None;
               msg_nickname := nick;
               msg_timestamp := ts |} in
          let w1 := console_log ("[Socket] Message in " +:+ room +:+ " from " +:+ nick
                                 +:+ ": " +:+ substring 0 50 content) w in
          emit (to_room room) (new_message message) w1
      end
  end.

(** socket.on('send-voice', (data) => ...); [duration] is [data.duration],
    possibly absent. *)
Definition on_send_voice (sid messageId url : string) (duration : option Z) (ts : Z)
    (w : World) : World :=
  match sessions w !! sid with
  | None => w
  | Some s =>
      match joined s with
      | None => console_warn ("[Socket] Voice message from unjoined user: " +:+ sid) w
      | Some (room, nick) =>
          let message :=
            {| msg_id := messageId;
               msg_type := voice;
               msg_content := None;
               msg_url := Some url;
               msg_duration := Some (default 0 duration);
               msg_nickname := nick;
               msg_timestamp := ts |} in
          let w1 := console_log ("[Socket] Voice message in " +:+ room +:+ " from "
                                 +:+ nick +:+ ": " +:+ messageId) w in
          emit (to_room room) (new_message message) w1
      end
  end.

(** socket.on('disconnect', () => ...).  Socket.IO has already taken the
    socket out of all its rooms; afterwards the closure is dead. *)
Definition on_disconnect (sid : string) (now : Z) (w : World) : World :=
  match sessions w !! sid with
  | None => w
  | Some s =>
      let w0 := with_adapter (leave_all sid) w in
      let w1 := console_log ("[Socket] Client disconnected: " +:+ sid) w0 in
      let w2 := match joined s with
                | Some (room, nick) =>
                    emit (to_room_except room sid) (user_left nick now)
                      (removeUserFromRoom room sid w1)
                | None => w1
                end in
      with_sessions (delete sid) w2
  end.

(** *** The server as a whole *)

Inductive Input :=
| connection (sid : string)
| join_room (sid roomId : string) (pick draw : nat) (now : Z)
| send_message (sid content : string) (tId : Z) (rnd : string) (ts : Z)
| send_voice (sid messageId url : string) (duration : option Z) (ts : Z)
| disconnect (sid : string) (now : Z).

Definition step (w : World) (i : Input) : World :=
  match i with
  | connection sid => on_connection sid w
  | join_room sid roomId pick draw now => on_join_room sid roomId pick draw now w
  | send_message sid content tId rnd ts => on_send_message sid content tId rnd ts w
  | send_voice sid messageId url duration ts => on_send_voice sid messageId url duration ts w
  | disconnect sid now => on_disconnect sid now w
  end.

Definition run (inputs : list Input) : World := foldl step initial inputs.

Definition reachable (w : World) : Prop := ∃ inputs, w = run inputs.

(** *** Observations *)

(** The events a given socket was sent, oldest first. *)
Definition inbox (sid : string) (out : list Emission) : list Event :=
  event <$> filter (λ e, sid ∈ recipients e) out.


(** The sockets recorded in a room of the registry. *)
Definition sockets_of (room : list User) : gset string :=
  list_to_set (socketId <$> room).

(** The entries a socket has in a room of the registry. *)
Definition entries_of (sid : string) (room : list User) : list User :=
  filter (λ u, socketId u = sid) room.

(** What is left under a room name once [sid] has been taken out. *)
Definition after_removal (sid : string) (room : list User) : option (list User) :=
  let room' := delete_first sid room in
  if (length room' =? 0)%nat then None else Some room'.

(** The session makes 'join-room' take the socket out of room [r]. *)
Definition leaving (s : Session) (r : string) : Prop :=
  currentRoom s = Some r ∧ r ≠ "".

(** *** The invariant of the reachable worlds *)

(** The nickname under which a session sits in room [r], if it does. *)
Definition seat_of (s : Session) (r : string) : option string :=
  match currentRoom s, currentNickname s with
  | Some r', Some n => if decide (r' = r) then Some n else None
  | _, _ => None
  end.

Definition seat (ss : gmap string Session) (sid r : string) : option string :=
  ss !! sid ≫= λ s, seat_of s r.

Definition seat_entries (sid : string) (o : option string) : list User :=
  match o with
  | Some n => [{| socketId := sid; nickname := n |}]
  | None => []
  end.

(** The two closure variables are set together, and no nickname is empty. *)
Definition session_ok (s : Session) : Prop :=
  match currentRoom s, currentNickname s with
  | None, None => True
  | Some _, Some n => n ≠ ""
  | _, _ => False
  end.

Record Inv (w : World) : Prop := {
  (* no room of the registry is empty *)
  inv_nonempty : ∀ r us, rooms w !! r = Some us → us ≠ [];
  (* in a room with a truthy name, a socket has the one entry its session says *)
  inv_entries : ∀ sid r, r ≠ "" →
    entries_of sid (room_of (rooms w) r) = seat_entries sid (seat (sessions w) sid r);
  inv_session : ∀ sid s, sessions w !! sid = Some s → session_ok s
}.

(** *** Room names and socket ids kept apart *)

(** A room name that is also the id of a live socket addresses that
    socket's own room.  An input keeps the two apart when the id of a new
    socket is not empty and not the current room of any connection, and
    when the room of a join is not the id of a live socket. *)
Definition keeps_apart (w : World) (i : Input) : bool :=
  match i with
  | connection sid =>
      bool_decide (sid ≠ ""
                   ∧ map_Forall (λ _ s, currentRoom s ≠ Some sid) (sessions w))
  | join_room _ roomId _ _ _ => bool_decide (sessions w !! roomId = None)
  | _ => true
  end.

Fixpoint kept_apart_from (w : World) (inputs : list Input) : bool :=
  match inputs with
  | [] => true
  | i :: rest => keeps_apart w i && kept_apart_from (step w i) rest
  end.

Definition kept_apart (inputs : list Input) : bool := kept_apart_from initial inputs.

(** The worlds reached by inputs that keep room names and socket ids apart. *)
Definition reachable_apart (w : World) : Prop :=
  ∃ inputs, kept_apart inputs = true ∧ w = run inputs.

(** What holds in those worlds on top of [Inv]. *)
Record Apart (w : World) : Prop := {
  apart_inv : Inv w;
  (* no live socket has the empty id *)
  apart_ids : ∀ x s, sessions w !! x = Some s → x ≠ "";
  (* no current room is the id of a live socket *)
  apart_rooms : ∀ y s x,
    sessions w !! y = Some s → currentRoom s = Some x → sessions w !! x = None;
  (* Socket.IO has a socket in its own room and in the room of its session *)
  apart_adapter : ∀ x r, r ≠ "" →
    x ∈ members (adapter w) r
    ↔ (r = x ∧ is_Some (sessions w !! x)) ∨ is_Some (seat (sessions w) x r)
}.

End Socket.

(** ** server.js: the two HTTP endpoints in front of the store *)

Module Server.
Import Storage.

(** [req.file] as multer's memory storage hands it over. *)
Record UploadedFile := {
  file_buffer : list Byte.byte;
  mimetype : string;
  file_size : nat
}.

(** What a handler answers with. *)
Inductive Body :=
| json_error (error : string)              (* res.status(..).json({ error })            *)
| json_uploaded (messageId url : string)   (* res.json({ success: true, messageId, url }) *)
| raw (bytes : list Byte.byte).            (* res.send(buffer)                          *)

(** [status] is 200 unless [res.status] was called; [headers_set] lists
    the [res.set(field, value)] calls of the handler, in order. *)
Record Response := {
  status : nat;
  headers_set : list (string * string);
  body : Body
}.

Definition api_log (s : string) (st : Store) : Store :=
  {| voiceMessages := voiceMessages st;
     console := (console st ++ [log_line s])%list |}.

(** app.post('/upload-voice', upload.single('audio'), ...).  [file] is
    [req.file]; [tId] is the [Date.now()] of the id, [rnd] is
    [Math.random().toString(36).substr(2, 9)], and [tStore] the
    [Date.now()] read inside [storeVoiceMessage].  Nothing in the [try]
    block throws, so the [catch] branch is not taken. *)
Definition upload_voice (file : option UploadedFile) (tId : Z) (rnd : string)
    (tStore : Z) (st : Store) : Response * Store :=
  match file with
  | None =>
      ({| status := 400; headers_set := [];
          body := json_error "No audio file provided" |}, st)
  | Some f =>
      let messageId := "voice-" +:+ show_Z tId +:+ "-" +:+ rnd in
      let st1 := storeVoiceMessage messageId (file_buffer f) (mimetype f) tStore st in
      let url := "/voice/" +:+ messageId in
      ({| status := 200; headers_set := []; body := json_uploaded messageId url |},
       api_log ("[API] Voice message uploaded: " +:+ messageId +:+ " ("
                +:+ show_nat (file_size f) +:+ " bytes)") st1)
  end.

(** app.get('/voice/:messageId', ...); [messageId] is [req.params.messageId]. *)
Definition get_voice (messageId : string) (st : Store) : Response * Store :=
  let '(voiceMessage, st1) := getVoiceMessage messageId st in
  match voiceMessage with
  | None =>
      ({| status := 404; headers_set := [];
          body := json_error "Voice message not found" |}, st1)
  | Some vm =>
      ({| status := 200;
          headers_set :=
            [ ("Content-Type", mimeType vm);
              ("Content-Length", show_nat (length (buffer vm)));
              ("Cache-Control", "public, max-age=86400") ];
          body := raw (buffer vm) |},
       api_log ("[API] Voice message retrieved: " +:+ messageId) st1)
  end.

End Server.

(** ** useSocket: what a client keeps of the events it is sent *)

Module Client.
Import Socket.

(** The [nickname], [participants] and [messages] state of the hook. *)
Record View := {
  shown_nickname : option string;
  participants : list string;
  messages : list Message
}.

Definition initial_view : View :=
  {| shown_nickname := None; participants := []; messages := [] |}.

(** The [newSocket.on(...)] handlers for the server's events. *)
Definition receive (v : View) (e : Event) : View :=
  match e with
  | nickname_assigned n =>
      {| shown_nickname := Some n; participants := participants v;
         messages := messages v |}
  | participants_list l =>
      {| shown_nickname := shown_nickname v; participants := l;
         messages := messages v |}
  | new_message m =>
      {| shown_nickname := shown_nickname v; participants := participants v;
         messages := (messages v ++ [m])%list |}
  | user_joined n _ =>
      {| shown_nickname := shown_nickname v;
         participants := (participants v ++ [n])%list;
         messages := messages v |}
  | user_left n _ =>
      {| shown_nickname := shown_nickname v;
         participants := filter (λ p, p ≠ n) (participants v);
         messages := messages v |}
  end.

(** The view after a sequence of events, oldest first. *)
Definition replay (v : View) (events : list Event) : View := foldl receive v events.

End Client.

Module StorageExamples.
Import Storage.

Definition five_bytes : list Byte.byte := [Byte.x01; Byte.x02; Byte.x03; Byte.x04; Byte.x05].

Definition one_clip : Store := storeVoiceMessage "voice-1" five_bytes "audio/webm" 0 empty.

Definition hours (h : Z) : Z := h * 60 * 60 * 1000.

End StorageExamples.

Module SocketExamples.
Import Socket.

(** Two clients meet in "lobby"; the second then moves on to "den". *)
Definition two_in_lobby : list Input :=
  [connection "a"; connection "b";
   join_room "a" "lobby" 0 234 1000;
   join_room "b" "lobby" 1 4567 2000].

Definition b_moves_on : list Input :=
  two_in_lobby ++ [join_room "b" "den" 2 89 3000].






(** A client joins the room whose name is the empty string, then "den",
    then goes away. *)
Definition through_the_nameless_room : list Input :=
  [connection "a";
   join_room "a" "" 0 234 1000;
   join_room "a" "den" 1 4567 2000;
   disconnect "a" 3000].

End SocketExamples.

(** ** Facts about the store *)

Module StorageFacts.
Import Storage.

Section Sweep.
Variable now : Z.

Lemma sweep_entry_fst l : ∀ m c,
  (foldl (sweep_entry now) (m, c) l).1 = foldl (sweep_map now) m l.
Proof.
  induction l as [|e l IH]; intros m c; simpl; [done|].
  unfold sweep_entry at 2, sweep_map at 2; simpl.
  destruct (expired now e.2); apply IH.
Qed.

Lemma sweep_entry_snd l : ∀ m c,
  (foldl (sweep_entry now) (m, c) l).2
  = (c + length (filter (λ e, (now - timestamp e.2 > maxAge)%Z) l))%nat.
Proof.
  induction l as [|e l IH]; intros m c; simpl; [lia|].
  unfold sweep_entry at 2, expired; simpl.
  rewrite filter_cons. case_bool_decide; case_decide; try done.
  rewrite IH. simpl. lia.
Qed.

Lemma sweep_map_gone l : ∀ m k,
  m !! k = None → foldl (sweep_map now) m l !! k = None.
Proof.
  induction l as [|e l IH]; intros m k Hk; simpl; [done|].
  apply IH. unfold sweep_map. destruct (expired now e.2); [|done].
  rewrite lookup_delete. by case_decide.
Qed.

Lemma sweep_map_dropped l : ∀ m k v,
  (k, v) ∈ l → now - timestamp v > maxAge → foldl (sweep_map now) m l !! k = None.
Proof.
  induction l as [|[k' v'] l IH]; intros m k v Hin Hold; simpl.
  - by apply elem_of_nil in Hin.
  - apply elem_of_cons in Hin as [Heq|Hin]; [|by eapply IH].
    injection Heq as <- <-. apply sweep_map_gone.
    unfold sweep_map, expired; simpl.
    rewrite bool_decide_eq_true_2 by done. apply lookup_delete_eq.
Qed.

Lemma sweep_map_kept l : ∀ m k,
  (∀ v, (k, v) ∈ l → ¬ now - timestamp v > maxAge) →
  foldl (sweep_map now) m l !! k = m !! k.
Proof.
  induction l as [|[k' v'] l IH]; intros m k Hall; simpl; [done|].
  rewrite IH by (intros v Hv; apply Hall; by right).
  unfold sweep_map, expired; simpl. case_bool_decide as Hold; [|done].
  apply lookup_delete_ne. intros ->. by apply (Hall v'); [left|].
Qed.

(** The loop keeps exactly the records that are not too old... *)
Lemma sweep_loop_map m : (sweep_loop now m).1 = fresh now m.
Proof.
  unfold sweep_loop. rewrite sweep_entry_fst. apply map_eq. intros k.
  unfold fresh. rewrite map_lookup_filter.
  destruct (m !! k) as [v|] eqn:Hk; simpl.
  - destruct (decide (now - timestamp v > maxAge)) as [Hold|Hyoung].
    + rewrite option_guard_False by (simpl; tauto).
      eapply sweep_map_dropped; [by apply elem_of_map_to_list|done].
    + rewrite option_guard_True by done.
      rewrite sweep_map_kept; [done|].
      intros v' Hv'. apply elem_of_map_to_list in Hv'. congruence.
  - by apply sweep_map_gone.
Qed.

Lemma filter_entries_size (m : gmap string VoiceRecord) :
  length (filter (λ e, now - timestamp e.2 > maxAge) (map_to_list m))
  = size (stale now m).
Proof.
  unfold stale. induction m as [|k v m Hk Hfirst IH] using map_first_key_ind.
  - by rewrite map_to_list_empty, map_filter_empty, map_size_empty.
  - rewrite map_to_list_insert_first_key by done.
    rewrite filter_cons, map_filter_insert, (delete_id m k) by done.
    simpl. destruct (decide (now - timestamp v > maxAge)) as [Hold|Hyoung].
    + simpl. rewrite IH.
      rewrite map_size_insert_None; [done|].
      apply map_lookup_filter_None. by left.
    + done.
Qed.

(** ... and counts the ones it drops. *)
Lemma sweep_loop_count m : (sweep_loop now m).2 = size (stale now m).
Proof.
  unfold sweep_loop. rewrite sweep_entry_snd. simpl.
  apply filter_entries_size.
Qed.

Lemma stale_fresh_size m : (size (stale now m) + size (fresh now m) = size m)%nat.
Proof.
  unfold stale, fresh.
  rewrite <- map_size_disj_union by apply map_disjoint_filter_complement.
  by rewrite map_filter_union_complement.
Qed.

Lemma stale_of_fresh m : stale now (fresh now m) = ∅.
Proof.
  unfold stale, fresh. apply map_eq. intros k.
  rewrite lookup_empty. apply map_lookup_filter_None. right.
  intros v Hv Hold. apply map_lookup_filter_Some in Hv as [_ Hv]. simpl in *. done.
Qed.

Lemma fresh_of_fresh m : fresh now (fresh now m) = fresh now m.
Proof.
  unfold fresh. apply map_filter_id. intros k v Hv.
  by apply map_lookup_filter_Some in Hv as [_ Hv].
Qed.
End Sweep.

End StorageFacts.


(** ** Facts about the handlers *)

Module SocketFacts.
Import Socket SocketExamples.

(** *** Lists of users *)

Lemma entries_of_delete_first x sid (l : list User) :
  entries_of x (delete_first sid l)
  = if decide (x = sid) then tail (entries_of sid l) else entries_of x l.
Proof.
  unfold entries_of. induction l as [|u l IH]; simpl.
  - by case_decide.
  - destruct (decide (socketId u = sid)) as [Hu|Hu]; rewrite !filter_cons.
    + destruct (decide (x = sid)) as [->|Hx].
      * by rewrite decide_True by done.
      * by rewrite decide_False by congruence.
    + rewrite IH. destruct (decide (x = sid)) as [->|Hx].
      * by rewrite !decide_False by done.
      * done.
Qed.

Lemma delete_first_absent sid (l : list User) :
  entries_of sid l = [] → delete_first sid l = l.
Proof.
  unfold entries_of. induction l as [|u l IH]; simpl; [done|].
  rewrite filter_cons. destruct (decide (socketId u = sid)); [done|].
  intros H. by rewrite IH.
Qed.



Lemma entries_of_app x (l k : list User) :
  entries_of x (l ++ k) = (entries_of x l ++ entries_of x k)%list.
Proof. apply filter_app. Qed.

Lemma entries_of_nil_iff x (l : list User) :
  entries_of x l = [] ↔ x ∉ sockets_of l.
Proof.
  unfold entries_of, sockets_of. rewrite elem_of_list_to_set, list_elem_of_fmap.
  split.
  - intros Hnil (u & -> & Hu).
    assert (u ∈ filter (λ v, socketId v = socketId u) l) as Hin
      by (by apply list_elem_of_filter).
    rewrite Hnil in Hin. by apply elem_of_nil in Hin.
  - intros Hno. destruct (filter _ l) as [|u k] eqn:Hf; [done|].
    exfalso. apply Hno.
    assert (u ∈ filter (λ v, socketId v = x) l) as Hin by (rewrite Hf; left).
    apply list_elem_of_filter in Hin as [Hu Hin]. by exists u.
Qed.

(** *** Socket.IO rooms *)

Lemma members_join roomId sid ad r :
  members (socket_join roomId sid ad) r
  = if decide (r = roomId) then members ad r ∪ {[sid]} else members ad r.
Proof.
  unfold socket_join, members at 1. case_decide as H.
  - subst. by rewrite lookup_insert_eq.
  - by rewrite lookup_insert_ne.
Qed.

Lemma members_leave roomId sid ad r :
  members (socket_leave roomId sid ad) r
  = if decide (r = roomId) then members ad r ∖ {[sid]} else members ad r.
Proof.
  unfold socket_leave, members at 1. case_decide as H.
  - subst. by rewrite lookup_insert_eq.
  - by rewrite lookup_insert_ne.
Qed.

Lemma members_leave_all sid ad r :
  members (leave_all sid ad) r = members ad r ∖ {[sid]}.
Proof.
  unfold leave_all, members. rewrite lookup_fmap.
  destruct (ad !! r); simpl; [done|].
  apply set_eq. intros x. rewrite elem_of_difference, elem_of_empty. tauto.
Qed.

(** *** removeUserFromRoom and add_user *)

Lemma remove_lookup roomId sid w r :
  rooms (removeUserFromRoom roomId sid w) !! r
  = if decide (r = roomId) then rooms w !! r ≫= after_removal sid
    else rooms w !! r.
Proof.
  unfold removeUserFromRoom, after_removal.
  destruct (rooms w !! roomId) as [room|] eqn:Hroom.
  - destruct (length (delete_first sid room) =? 0)%nat eqn:Hlen; simpl.
    + case_decide as H.
      * subst. rewrite lookup_delete_eq, Hroom. simpl. by rewrite Hlen.
      * by rewrite lookup_delete_ne, lookup_insert_ne.
    + case_decide as H.
      * subst. rewrite lookup_insert_eq, Hroom. simpl. by rewrite Hlen.
      * by rewrite lookup_insert_ne.
  - case_decide as H; [|done]. subst. by rewrite Hroom.
Qed.

Lemma remove_room_of roomId sid w r :
  room_of (rooms (removeUserFromRoom roomId sid w)) r
  = if decide (r = roomId) then delete_first sid (room_of (rooms w) r)
    else room_of (rooms w) r.
Proof.
  unfold room_of. rewrite remove_lookup. case_decide; [|done].
  destruct (rooms w !! r) as [room|]; simpl; [|done].
  unfold after_removal. destruct (delete_first sid room); done.
Qed.

Lemma remove_adapter roomId sid w :
  adapter (removeUserFromRoom roomId sid w) = adapter w.
Proof.
  unfold removeUserFromRoom. destruct (rooms w !! roomId); [|done].
  by destruct (length _ =? 0)%nat.
Qed.

Lemma remove_sessions roomId sid w :
  sessions (removeUserFromRoom roomId sid w) = sessions w.
Proof.
  unfold removeUserFromRoom. destruct (rooms w !! roomId); [|done].
  by destruct (length _ =? 0)%nat.
Qed.

Lemma remove_outbox roomId sid w :
  outbox (removeUserFromRoom roomId sid w) = outbox w.
Proof.
  unfold removeUserFromRoom. destruct (rooms w !! roomId); [|done].
  by destruct (length _ =? 0)%nat.
Qed.

Lemma remove_nonempty roomId sid w :
  (∀ r us, rooms w !! r = Some us → us ≠ []) →
  ∀ r us, rooms (removeUserFromRoom roomId sid w) !! r = Some us → us ≠ [].
Proof.
  intros Hw r us. rewrite remove_lookup. case_decide; [|apply Hw].
  destruct (rooms w !! r) as [room|]; simpl; [|done].
  unfold after_removal. destruct (delete_first sid room); simpl; [done|].
  by intros [= <-].
Qed.

Lemma add_user_lookup roomId u (rs : gmap string (list User)) r :
  add_user roomId u rs !! r
  = if decide (r = roomId) then Some (room_of rs r ++ [u])%list else rs !! r.
Proof.
  unfold add_user, room_of. destruct (rs !! roomId) eqn:Hroom.
  - case_decide as H.
    + subst. by rewrite lookup_insert_eq.
    + by rewrite lookup_insert_ne.
  - case_decide as H.
    + subst. by rewrite lookup_insert_eq, lookup_insert_eq, Hroom.
    + by rewrite !lookup_insert_ne.
Qed.

Lemma add_user_room_of roomId u (rs : gmap string (list User)) r :
  room_of (add_user roomId u rs) r
  = if decide (r = roomId) then (room_of rs r ++ [u])%list else room_of rs r.
Proof.
  unfold room_of at 1. rewrite add_user_lookup. by case_decide.
Qed.

Lemma add_user_nonempty roomId u (rs : gmap string (list User)) :
  (∀ r us, rs !! r = Some us → us ≠ []) →
  ∀ r us, add_user roomId u rs !! r = Some us → us ≠ [].
Proof.
  intros Hrs r us. rewrite add_user_lookup. case_decide; [|apply Hrs].
  intros [= <-]. by destruct (room_of rs r).
Qed.

(** *** Seats *)

Lemma seat_insert (ss : gmap string Session) sid s x r :
  seat (<[sid := s]> ss) x r
  = if decide (x = sid) then seat_of s r else seat ss x r.
Proof.
  unfold seat. case_decide as H.
  - subst. by rewrite lookup_insert_eq.
  - by rewrite lookup_insert_ne.
Qed.

Lemma seat_delete (ss : gmap string Session) sid x r :
  seat (delete sid ss) x r = if decide (x = sid) then None else seat ss x r.
Proof.
  unfold seat. case_decide as H.
  - subst. by rewrite lookup_delete_eq.
  - by rewrite lookup_delete_ne.
Qed.

Lemma seat_lookup (ss : gmap string Session) sid s r :
  ss !! sid = Some s → seat ss sid r = seat_of s r.
Proof. intros H. unfold seat. by rewrite H. Qed.

Lemma seat_of_Some s r n :
  seat_of s r = Some n ↔ currentRoom s = Some r ∧ currentNickname s = Some n.
Proof.
  unfold seat_of. destruct (currentRoom s) as [r'|], (currentNickname s) as [n'|];
    try case_decide; naive_solver.
Qed.

Lemma seat_of_None s r : currentRoom s ≠ Some r → seat_of s r = None.
Proof.
  intros H. destruct (seat_of s r) as [n|] eqn:Hn; [|done].
  apply seat_of_Some in Hn. naive_solver.
Qed.

Lemma tail_seat_entries sid o : tail (seat_entries sid o) = [].
Proof. by destruct o. Qed.

Lemma joined_Some s room nick :
  joined s = Some (room, nick) ↔
  currentRoom s = Some room ∧ currentNickname s = Some nick ∧ room ≠ "" ∧ nick ≠ "".
Proof.
  unfold joined, truthy.
  destruct (currentRoom s) as [r|], (currentNickname s) as [n|];
    repeat case_decide; naive_solver.
Qed.

Lemma joined_None_seat s r :
  session_ok s → joined s = None → r ≠ "" → seat_of s r = None.
Proof.
  unfold session_ok, joined, truthy. intros Hok Hj Hr. apply seat_of_None.
  destruct (currentRoom s) as [r'|], (currentNickname s) as [n|]; try done.
  repeat case_decide; naive_solver.
Qed.

Lemma generateNickname_nonempty pick draw : generateNickname pick draw ≠ "".
Proof.
  unfold generateNickname, prefixes.
  do 6 (destruct pick as [|pick]; [done|]). done.
Qed.

(** *** The invariant is kept by every handler *)

Lemma Inv_same w w' :
  rooms w' = rooms w → adapter w' = adapter w → sessions w' = sessions w →
  Inv w → Inv w'.
Proof.
  intros Hr Ha Hs [H1 H2 H3]. split; rewrite ?Hr, ?Hs; done.
Qed.

Lemma Inv_initial : Inv initial.
Proof.
  split; simpl.
  - intros r us. by rewrite lookup_empty.
  - intros sid r _. unfold room_of, seat. by rewrite !lookup_empty.
  - intros sid s. by rewrite lookup_empty.
Qed.

Lemma Inv_connection sid w : Inv w → Inv (on_connection sid w).
Proof.
  intros [H1 H2 H3]. unfold on_connection.
  destruct (sessions w !! sid) as [s|] eqn:Hs; [done|].
  split; simpl.
  - done.
  - intros x r Hr. rewrite seat_insert. case_decide; [subst|by apply H2].
    rewrite H2 by done. unfold seat. by rewrite Hs.
  - intros x s. rewrite lookup_insert. case_decide; [|by apply H3].
    by intros [= <-].
Qed.

Lemma Inv_send_message sid content tId rnd ts w :
  Inv w → Inv (on_send_message sid content tId rnd ts w).
Proof.
  unfold on_send_message. destruct (sessions w !! sid) as [s|]; [|done].
  destruct (joined s) as [[room nick]|]; by apply Inv_same.
Qed.

Lemma Inv_send_voice sid messageId url duration ts w :
  Inv w → Inv (on_send_voice sid messageId url duration ts w).
Proof.
  unfold on_send_voice. destruct (sessions w !! sid) as [s|]; [|done].
  destruct (joined s) as [[room nick]|]; by apply Inv_same.
Qed.

(** *** The implicit leave of 'join-room' *)

Lemma leave_previous_room_of sid s w r :
  room_of (rooms (leave_previous sid s w)) r
  = if decide (leaving s r) then delete_first sid (room_of (rooms w) r)
    else room_of (rooms w) r.
Proof.
  unfold leave_previous, leaving, truthy.
  destruct (currentRoom s) as [cr|].
  - destruct (decide (cr = "")) as [->|Hcr].
    + case_decide as H; [|done]. destruct H as [[= <-] H]. done.
    + rewrite remove_room_of. simpl. case_decide as H.
      * subst. rewrite decide_True; done.
      * rewrite decide_False; [done|]. intros [[= ->] _]. done.
  - case_decide as H; [|done]. by destruct H.
Qed.

Lemma leave_previous_members sid s w r :
  members (adapter (leave_previous sid s w)) r
  = if decide (leaving s r) then members (adapter w) r ∖ {[sid]}
    else members (adapter w) r.
Proof.
  unfold leave_previous, leaving, truthy.
  destruct (currentRoom s) as [cr|].
  - destruct (decide (cr = "")) as [->|Hcr].
    + case_decide as H; [|done]. destruct H as [[= <-] H]. done.
    + rewrite remove_adapter. simpl. rewrite members_leave. case_decide as H.
      * subst. rewrite decide_True; done.
      * rewrite decide_False; [done|]. intros [[= ->] _]. done.
  - case_decide as H; [|done]. by destruct H.
Qed.

Lemma leave_previous_sessions sid s w :
  sessions (leave_previous sid s w) = sessions w.
Proof.
  unfold leave_previous. destruct (currentRoom s) as [cr|]; [|done].
  destruct (truthy (Some cr)); [|done]. by rewrite remove_sessions.
Qed.

Lemma leave_previous_outbox sid s w :
  outbox (leave_previous sid s w) = outbox w.
Proof.
  unfold leave_previous. destruct (currentRoom s) as [cr|]; [|done].
  destruct (truthy (Some cr)); [|done]. by rewrite remove_outbox.
Qed.

Lemma leave_previous_nonempty sid s w :
  (∀ r us, rooms w !! r = Some us → us ≠ []) →
  ∀ r us, rooms (leave_previous sid s w) !! r = Some us → us ≠ [].
Proof.
  intros Hw. unfold leave_previous. destruct (currentRoom s) as [cr|]; [|done].
  destruct (truthy (Some cr)); [|done]. by apply remove_nonempty.
Qed.

(** The three registry fields after 'join-room'. *)
Lemma join_rooms sid roomId pick draw now w s :
  sessions w !! sid = Some s →
  rooms (on_join_room sid roomId pick draw now w)
  = add_user roomId {| socketId := sid; nickname := generateNickname pick draw |}
      (rooms (leave_previous sid s w)).
Proof. intros Hs. unfold on_join_room. by rewrite Hs. Qed.

Lemma join_adapter sid roomId pick draw now w s :
  sessions w !! sid = Some s →
  adapter (on_join_room sid roomId pick draw now w)
  = socket_join roomId sid (adapter (leave_previous sid s w)).
Proof. intros Hs. unfold on_join_room. by rewrite Hs. Qed.

Lemma join_sessions sid roomId pick draw now w s :
  sessions w !! sid = Some s →
  sessions (on_join_room sid roomId pick draw now w)
  = <[sid := {| currentRoom := Some roomId;
                currentNickname := Some (generateNickname pick draw) |}]>
      (sessions w).
Proof.
  intros Hs. unfold on_join_room. rewrite Hs. simpl.
  by rewrite leave_previous_sessions.
Qed.

(** Once the implicit leave is done, the joining socket has no entry
    left in any room with a truthy name. *)
Lemma leave_previous_entries sid s w r :
  Inv w → sessions w !! sid = Some s → r ≠ "" →
  entries_of sid (room_of (rooms (leave_previous sid s w)) r) = [].
Proof.
  intros Hw Hs Hr. rewrite leave_previous_room_of.
  pose proof (inv_entries w Hw sid r Hr) as He.
  case_decide as Hl.
  - rewrite entries_of_delete_first, decide_True, He by done.
    apply tail_seat_entries.
  - rewrite He, (seat_lookup _ _ s) by done.
    rewrite seat_of_None; [done|]. intros Hc. apply Hl. by split.
Qed.

Lemma Inv_join_room sid roomId pick draw now w :
  Inv w → Inv (on_join_room sid roomId pick draw now w).
Proof.
  intros Hw. destruct (sessions w !! sid) as [s|] eqn:Hs;
    [|unfold on_join_room; by rewrite Hs].
  split.
  - rewrite (join_rooms _ _ _ _ _ _ s) by done.
    apply add_user_nonempty, leave_previous_nonempty, Hw.
  - intros x r Hr.
    rewrite (join_rooms _ _ _ _ _ _ s), (join_sessions _ _ _ _ _ _ s) by done.
    rewrite add_user_room_of, seat_insert.
    destruct (decide (x = sid)) as [->|Hx].
    + unfold seat_of; simpl. destruct (decide (r = roomId)) as [->|Hne].
      * rewrite entries_of_app, leave_previous_entries by done.
        rewrite decide_True by done. unfold entries_of. simpl.
        rewrite filter_cons, decide_True by done. done.
      * rewrite leave_previous_entries by done.
        rewrite decide_False by congruence. done.
    + assert (entries_of x (room_of (rooms (leave_previous sid s w)) r)
              = seat_entries x (seat (sessions w) x r)) as Hbase.
      { rewrite leave_previous_room_of. case_decide.
        - rewrite entries_of_delete_first, decide_False by done. by apply Hw.
        - by apply Hw. }
      destruct (decide (r = roomId)) as [->|Hne]; [|done].
      rewrite entries_of_app, Hbase. unfold entries_of. simpl.
      rewrite filter_cons, decide_False by (simpl; congruence).
      by rewrite filter_nil, app_nil_r.
  - intros x s'. rewrite (join_sessions _ _ _ _ _ _ s) by done.
    rewrite lookup_insert. case_decide; [|by apply Hw].
    intros [= <-]. unfold session_ok; simpl. apply generateNickname_nonempty.
Qed.

(** *** 'disconnect' *)

Lemma disconnect_lookup sid now w s r :
  sessions w !! sid = Some s →
  rooms (on_disconnect sid now w) !! r
  = match joined s with
    | Some (room, _) =>
        if decide (r = room) then rooms w !! r ≫= after_removal sid
        else rooms w !! r
    | None => rooms w !! r
    end.
Proof.
  intros Hs. unfold on_disconnect. rewrite Hs. simpl.
  destruct (joined s) as [[room nick]|]; [|done].
  simpl. by rewrite remove_lookup.
Qed.

Lemma disconnect_room_of sid now w s r :
  sessions w !! sid = Some s →
  room_of (rooms (on_disconnect sid now w)) r
  = match joined s with
    | Some (room, _) =>
        if decide (r = room) then delete_first sid (room_of (rooms w) r)
        else room_of (rooms w) r
    | None => room_of (rooms w) r
    end.
Proof.
  intros Hs. unfold on_disconnect. rewrite Hs. simpl.
  destruct (joined s) as [[room nick]|]; [|done].
  simpl. by rewrite remove_room_of.
Qed.

Lemma disconnect_adapter sid now w s :
  sessions w !! sid = Some s →
  adapter (on_disconnect sid now w) = leave_all sid (adapter w).
Proof.
  intros Hs. unfold on_disconnect. rewrite Hs. simpl.
  destruct (joined s) as [[room nick]|]; [|done].
  simpl. by rewrite remove_adapter.
Qed.

Lemma disconnect_sessions sid now w s :
  sessions w !! sid = Some s →
  sessions (on_disconnect sid now w) = delete sid (sessions w).
Proof.
  intros Hs. unfold on_disconnect. rewrite Hs. simpl.
  destruct (joined s) as [[room nick]|]; [|done].
  simpl. by rewrite remove_sessions.
Qed.

Lemma Inv_disconnect sid now w : Inv w → Inv (on_disconnect sid now w).
Proof.
  intros Hw. destruct (sessions w !! sid) as [s|] eqn:Hs;
    [|unfold on_disconnect; by rewrite Hs].
  split.
  - intros r us. rewrite (disconnect_lookup _ _ _ s) by done.
    destruct (joined s) as [[room nick]|]; [|apply Hw].
    case_decide; [|apply Hw].
    destruct (rooms w !! r) as [room'|]; simpl; [|done].
    unfold after_removal. destruct (delete_first sid room'); simpl; [done|].
    by intros [= <-].
  - intros x r Hr.
    rewrite (disconnect_room_of _ _ _ s), (disconnect_sessions _ _ _ s) by done.
    rewrite seat_delete.
    pose proof (inv_entries w Hw x r Hr) as He.
    destruct (decide (x = sid)) as [->|Hx].
    + simpl. rewrite (seat_lookup _ _ s) in He by done.
      destruct (joined s) as [[room nick]|] eqn:Hj.
      * apply joined_Some in Hj as (Hc & Hn & Hroom & Hnick).
        case_decide as Hrr.
        -- rewrite entries_of_delete_first, decide_True, He by done.
           apply tail_seat_entries.
        -- rewrite He, seat_of_None; [done|]. congruence.
      * rewrite He, joined_None_seat; [done| |done|done].
        by eapply inv_session.
    + destruct (joined s) as [[room nick]|]; [|done].
      case_decide; [|done].
      by rewrite entries_of_delete_first, decide_False.
  - intros x s'. rewrite (disconnect_sessions _ _ _ s) by done.
    rewrite lookup_delete. case_decide; [done|]. apply Hw.
Qed.

(** The invariant speaks of rooms with a truthy name only: the guard
    [if (currentRoom)] does not fire for the empty string, so an entry
    made under that name outlives both a later join and the connection. *)
Example nameless_room_is_never_left :
  room_of (rooms (run through_the_nameless_room)) ""
    = [{| socketId := "a"; nickname := "User1234" |}]
  ∧ rooms (run through_the_nameless_room) !! "den" = None
  ∧ sessions (run through_the_nameless_room) !! "a" = None.
Proof. vm_compute. repeat split; reflexivity. Qed.

(** *** Every reachable world satisfies the invariant *)

Lemma Inv_step w i : Inv w → Inv (step w i).
Proof.
  destruct i; simpl.
  - apply Inv_connection.
  - apply Inv_join_room.
  - apply Inv_send_message.
  - apply Inv_send_voice.
  - apply Inv_disconnect.
Qed.

Lemma run_snoc inputs i : run (inputs ++ [i]) = step (run inputs) i.
Proof. unfold run. by rewrite foldl_app. Qed.

Lemma Inv_run inputs : Inv (run inputs).
Proof.
  induction inputs as [|i inputs IH] using rev_ind.
  - apply Inv_initial.
  - rewrite run_snoc. by apply Inv_step.
Qed.

Lemma reachable_Inv w : reachable w → Inv w.
Proof. intros [inputs ->]. apply Inv_run. Qed.

Lemma reachable_step w i : reachable w → reachable (step w i).
Proof. intros [inputs ->]. exists (inputs ++ [i])%list. by rewrite run_snoc. Qed.

(** *** What the handlers emit *)

Lemma join_outbox sid roomId pick draw now w s :
  sessions w !! sid = Some s →
  let w' := on_join_room sid roomId pick draw now w in
  let nick := generateNickname pick draw in
  outbox w'
  = (outbox w ++
     [ {| target := to_socket sid; recipients := {[sid]};
          event := nickname_assigned nick; registry := rooms w' |};
       {| target := to_room_except roomId sid;
          recipients := members (adapter w') roomId ∖ members (adapter w') sid;
          event := user_joined nick now; registry := rooms w' |};
       {| target := to_socket sid; recipients := {[sid]};
          event := participants_list (nickname <$> room_of (rooms w') roomId);
          registry := rooms w' |} ])%list.
Proof.
  intros Hs. simpl. unfold on_join_room. rewrite Hs. simpl.
  rewrite leave_previous_outbox, <- !app_assoc. done.
Qed.





(** *** Worlds in which room names and socket ids are kept apart *)

Lemma seat_Some_session (ss : gmap string Session) x r :
  is_Some (seat ss x r) → ∃ s, ss !! x = Some s ∧ currentRoom s = Some r.
Proof.
  unfold seat. destruct (ss !! x) as [s|]; simpl; [|by intros [? ?]].
  intros [n Hn]. apply seat_of_Some in Hn as [Hc _]. by exists s.
Qed.

Lemma seat_not_live (ss : gmap string Session) x r :
  ss !! x = None → seat ss x r = None.
Proof. intros H. unfold seat. by rewrite H. Qed.

Lemma Apart_same w w' :
  rooms w' = rooms w → adapter w' = adapter w → sessions w' = sessions w →
  Apart w → Apart w'.
Proof.
  intros Hr Ha Hs [H1 H2 H3 H4]. split; rewrite ?Ha, ?Hs; try done.
  by apply (Inv_same w).
Qed.

Lemma Apart_initial : Apart initial.
Proof.
  split; simpl.
  - apply Inv_initial.
  - intros x s. by rewrite lookup_empty.
  - intros y s x. by rewrite lookup_empty.
  - intros x r _. unfold members, seat. rewrite !lookup_empty. simpl.
    split; [by intros ?%not_elem_of_empty|]. by intros [[_ [? ?]]|[? ?]].
Qed.

Lemma Apart_connection sid w :
  Apart w → keeps_apart w (connection sid) = true → Apart (on_connection sid w).
Proof.
  intros Hw Hk. simpl in Hk. apply bool_decide_eq_true in Hk as [Hsid Hnone].
  unfold on_connection. destruct (sessions w !! sid) as [s0|] eqn:Hs; [done|].
  assert (∀ x, ¬ is_Some (seat (sessions w) x sid)) as Hfree.
  { intros x (s & Hx & Hc)%seat_Some_session. by apply (Hnone x s). }
  split; simpl.
  - pose proof (Inv_connection sid w (apart_inv w Hw)) as Hinv.
    unfold on_connection in Hinv. rewrite Hs in Hinv.
    by apply (Inv_same _ _ eq_refl eq_refl eq_refl) in Hinv.
  - intros x s. rewrite lookup_insert. case_decide; [by subst|]. apply Hw.
  - intros y s x. rewrite !lookup_insert. case_decide; [by intros [= <-]|].
    intros Hy Hc. case_decide as Hx.
    + subst x. exfalso. by apply (Hnone y s).
    + by apply (apart_rooms w Hw y s).
  - intros x r Hr. rewrite members_join, seat_insert, lookup_insert.
    pose proof (apart_adapter w Hw x r Hr) as Hold.
    destruct (decide (r = sid)) as [->|Hrs].
    + rewrite elem_of_union, elem_of_singleton, Hold.
      destruct (decide (x = sid)) as [->|Hx].
      * rewrite (decide_True (P:=(sid = sid))) by done.
        split; [intros _; left; by split|by right].
      * rewrite (decide_False (P:=(sid = x))) by congruence. split.
        -- intros [[[Heq _]|Hseat]|Heq]; [congruence|by apply Hfree in Hseat|done].
        -- intros [[Heq _]|Hseat]; [congruence|by apply Hfree in Hseat].
    + rewrite Hold. destruct (decide (x = sid)) as [->|Hx].
      * rewrite (decide_True (P:=(sid = sid))) by done.
        rewrite seat_not_live by done.
        split; intros [[Heq _]|[? ?]]; done.
      * by rewrite (decide_False (P:=(sid = x))) by congruence.
Qed.

Lemma Apart_join_room sid roomId pick draw now w :
  Apart w → keeps_apart w (join_room sid roomId pick draw now) = true →
  Apart (on_join_room sid roomId pick draw now w).
Proof.
  intros Hw Hk. simpl in Hk. apply bool_decide_eq_true in Hk.
  destruct (sessions w !! sid) as [s|] eqn:Hs;
    [|unfold on_join_room; by rewrite Hs].
  assert (roomId ≠ sid) as Hne by (intros ->; congruence).
  split.
  - apply Inv_join_room, Hw.
  - intros x s'. rewrite (join_sessions _ _ _ _ _ _ s) by done.
    rewrite lookup_insert. case_decide; [subst; intros _; by eapply apart_ids|].
    apply Hw.
  - intros y s' x. rewrite (join_sessions _ _ _ _ _ _ s) by done.
    rewrite !lookup_insert. case_decide as Hy.
    + intros [= <-]. simpl. intros [= <-]. by rewrite decide_False.
    + intros Hy' Hc. pose proof (apart_rooms w Hw y s' x Hy' Hc) as Hx.
      case_decide; [subst; congruence|done].
  - intros x r Hr.
    rewrite (join_adapter _ _ _ _ _ _ s), (join_sessions _ _ _ _ _ _ s) by done.
    rewrite members_join, leave_previous_members, seat_insert, lookup_insert.
    pose proof (apart_adapter w Hw x r Hr) as Hold.
    destruct (decide (x = sid)) as [->|Hx].
    + rewrite (decide_True (P:=(sid = sid))) by done. unfold seat_of; simpl.
      destruct (decide (r = roomId)) as [->|Hrr].
      * rewrite (decide_True (P:=(roomId = roomId))) by done.
        rewrite elem_of_union, elem_of_singleton.
        split; [intros _; right; by eexists|by right].
      * rewrite (decide_False (P:=(roomId = r))) by congruence.
        rewrite (seat_lookup _ _ s) in Hold by done.
        case_decide as Hl.
        -- rewrite elem_of_difference, elem_of_singleton. split; [tauto|].
           intros [[Heq _]|[? ?]]; [|done]. destruct Hl as [Hc _].
           pose proof (apart_rooms w Hw sid s r Hs Hc). congruence.
        -- rewrite Hold, seat_of_None; [|intros Hc; apply Hl; by split].
           split; intros [[Heq Hlive]|[? ?]]; try done; left; split; try done;
             by eexists.
    + rewrite (decide_False (P:=(sid = x))) by congruence.
      assert (x ∈ (if decide (leaving s r) then members (adapter w) r ∖ {[sid]}
                   else members (adapter w) r)
              ↔ x ∈ members (adapter w) r) as Hbase.
      { case_decide; [|done]. rewrite elem_of_difference, elem_of_singleton. tauto. }
      destruct (decide (r = roomId)) as [->|Hrr].
      * rewrite elem_of_union, elem_of_singleton, Hbase, Hold. tauto.
      * by rewrite Hbase, Hold.
Qed.

Lemma Apart_disconnect sid now w : Apart w → Apart (on_disconnect sid now w).
Proof.
  intros Hw. destruct (sessions w !! sid) as [s|] eqn:Hs;
    [|unfold on_disconnect; by rewrite Hs].
  split.
  - apply Inv_disconnect, Hw.
  - intros x s'. rewrite (disconnect_sessions _ _ _ s) by done.
    rewrite lookup_delete. case_decide; [done|]. apply Hw.
  - intros y s' x. rewrite (disconnect_sessions _ _ _ s) by done.
    rewrite !lookup_delete. case_decide; [done|]. intros Hy Hc.
    case_decide; [done|]. by apply (apart_rooms w Hw y s').
  - intros x r Hr.
    rewrite (disconnect_adapter _ _ _ s), (disconnect_sessions _ _ _ s) by done.
    rewrite members_leave_all, seat_delete, lookup_delete, elem_of_difference,
      elem_of_singleton, (apart_adapter w Hw x r Hr).
    destruct (decide (x = sid)) as [->|Hx].
    + rewrite (decide_True (P:=(sid = sid))) by done. split; [tauto|].
      intros [[_ [? ?]]|[? ?]]; done.
    + rewrite (decide_False (P:=(sid = x))) by congruence. tauto.
Qed.

Lemma Apart_step w i : Apart w → keeps_apart w i = true → Apart (step w i).
Proof.
  destruct i; simpl step.
  - apply Apart_connection.
  - apply Apart_join_room.
  - intros Hw _. revert Hw. unfold on_send_message.
    destruct (sessions w !! sid) as [s|]; [|done].
    destruct (joined s) as [[room nick]|]; by apply Apart_same.
  - intros Hw _. revert Hw. unfold on_send_voice.
    destruct (sessions w !! sid) as [s|]; [|done].
    destruct (joined s) as [[room nick]|]; by apply Apart_same.
  - intros Hw _. by apply Apart_disconnect.
Qed.

Lemma kept_apart_from_snoc inputs i : ∀ w,
  kept_apart_from w (inputs ++ [i])
  = kept_apart_from w inputs && keeps_apart (foldl step w inputs) i.
Proof.
  induction inputs as [|j inputs IH]; intros w; simpl.
  - by rewrite andb_true_r.
  - by rewrite IH, andb_assoc.
Qed.

Lemma Apart_run inputs : kept_apart inputs = true → Apart (run inputs).
Proof.
  induction inputs as [|i inputs IH] using rev_ind; intros Hk.
  - apply Apart_initial.
  - unfold kept_apart in Hk. rewrite kept_apart_from_snoc in Hk.
    apply andb_true_iff in Hk as [Hk Hi].
    rewrite run_snoc. apply Apart_step; [by apply IH|done].
Qed.

Lemma reachable_apart_Apart w : reachable_apart w → Apart w.
Proof. intros (inputs & Hk & ->). by apply Apart_run. Qed.

Lemma reachable_apart_reachable w : reachable_apart w → reachable w.
Proof. intros (inputs & _ & ->). by exists inputs. Qed.

(** A live socket is alone in the room named by its id. *)
Lemma Apart_own_room w sid s :
  Apart w → sessions w !! sid = Some s → members (adapter w) sid = {[sid]}.
Proof.
  intros Hw Hs. apply set_eq. intros x.
  rewrite (apart_adapter w Hw x sid (apart_ids w Hw sid s Hs)), elem_of_singleton.
  split.
  - intros [[Heq _]|(s' & Hx & Hc)%seat_Some_session]; [done|].
    pose proof (apart_rooms w Hw x s' sid Hx Hc). congruence.
  - intros ->. left. split; [done|by eexists].
Qed.

(** For a room name that is neither empty nor the id of a live socket,
    the registry and Socket.IO list the same sockets. *)
Lemma Apart_sockets_of w r :
  Apart w → r ≠ "" → sessions w !! r = None →
  sockets_of (room_of (rooms w) r) = members (adapter w) r.
Proof.
  intros Hw Hr Hfree. apply set_eq. intros x.
  rewrite (apart_adapter w Hw x r Hr).
  pose proof (entries_of_nil_iff x (room_of (rooms w) r)) as Hnil.
  rewrite (inv_entries w (apart_inv w Hw) x r Hr) in Hnil.
  destruct (seat (sessions w) x r) as [n|]; simpl in *.
  - split; [intros _; right; by eexists|]. intros _.
    destruct (decide (x ∈ sockets_of (room_of (rooms w) r))) as [|Hno]; [done|].
    by apply Hnil in Hno.
  - split.
    + intros Hin. exfalso. by apply Hnil.
    + intros [[-> [s Hs]]|[? ?]]; [congruence|done].
Qed.

(** The room of a session whose guard passes is such a name. *)
Lemma Apart_joined w sid s room nick :
  Apart w → sessions w !! sid = Some s → joined s = Some (room, nick) →
  room ≠ "" ∧ sessions w !! room = None ∧ seat (sessions w) sid room = Some nick.
Proof.
  intros Hw Hs (Hc & Hn & Hroom & Hnick)%joined_Some.
  split; [done|]. split; [by apply (apart_rooms w Hw sid s)|].
  rewrite (seat_lookup _ _ s) by done. by apply seat_of_Some.
Qed.

End SocketFacts.

(** * The specification, claim by claim *)

Import Storage StorageExamples StorageFacts.

(** C8: storing a clip and reading it back at once returns a record with
    exactly the stored bytes and content type (and the time of the store);
    reading never changes the store, whichever id is asked for, so no
    timestamp is refreshed by a read. *)
Theorem put_get_roundtrip (st : Store) (id : string) (buf : list Byte.byte)
    (mime : string) (now : Z) :
  let st1 := storeVoiceMessage id buf mime now st in
  (getVoiceMessage id st1).1
    = Some {| buffer := buf; mimeType := mime; timestamp := now |}
  ∧ (getVoiceMessage id st1).2 = st1
  ∧ ∀ (id' : string) (st' : Store),
      (getVoiceMessage id' st').2 = st'
      ∧ (getVoiceMessage id' (getVoiceMessage id' st').2).1 = (getVoiceMessage id' st').1.
Proof.
  simpl. split; [|split; [done|]].
  - unfold getVoiceMessage, storeVoiceMessage; simpl. apply lookup_insert_eq.
  - intros id' st'. by unfold getVoiceMessage.
Qed.

(** C2, as the code has it: a sweep at time [now] removes exactly the
    records with [now - timestamp > 24h] and leaves every other record as
    it was; the number removed is written to the console when it is
    positive, and the call itself evaluates to [undefined]. *)
Theorem sweep_removes_exactly_the_stale (now : Z) (st : Store) :
  let r := cleanupOldMessages now st in
  let n := size (stale now (voiceMessages st)) in
  (∀ id : string,
     voiceMessages r.2 !! id
     = match voiceMessages st !! id with
       | Some rec => if decide (now - timestamp rec > maxAge) then None else Some rec
       | None => None
       end)
  ∧ (size (voiceMessages r.2) + n = size (voiceMessages st))%nat
  ∧ console r.2
    = (if (0 <? n)%nat
       then (console st ++ [log_line ("[Storage] Cleaned up " +:+ show_nat n
                                      +:+ " old voice messages")])%list
       else console st)
  ∧ r.1 = JsUndefined.
Proof.
  simpl. unfold cleanupOldMessages.
  pose proof (sweep_loop_map now (voiceMessages st)) as Hm.
  pose proof (sweep_loop_count now (voiceMessages st)) as Hc.
  destruct (sweep_loop now (voiceMessages st)) as [m c]; simpl in *. subst m c.
  repeat split.
  - intros id. unfold fresh. rewrite map_lookup_filter.
    destruct (voiceMessages st !! id) as [rec|]; simpl; [|done].
    case_decide.
    + by rewrite option_guard_False by (simpl; tauto).
    + by rewrite option_guard_True.
  - pose proof (stale_fresh_size now (voiceMessages st)). lia.
Qed.

(** C2, as stated, fails: after 25 hours the sweep removes the one stored
    clip, yet the call does not evaluate to the number 1. *)
Lemma sweep_does_not_return_the_count :
  size (stale (hours 25) (voiceMessages one_clip)) = 1%nat
  ∧ (getVoiceMessage "voice-1" (cleanupOldMessages (hours 25) one_clip).2).1 = None
  ∧ (cleanupOldMessages (hours 25) one_clip).1 ≠ JsNumber 1.
Proof. vm_compute. repeat split; congruence. Qed.

(** C9: of two sweeps at the same clock reading, the first removes the
    stale records; the second finds nothing to remove (its count is 0) and
    leaves the whole store, console included, as the first left it. *)
Theorem sweep_twice (now : Z) (st : Store) :
  let st1 := (cleanupOldMessages now st).2 in
  voiceMessages st1 = fresh now (voiceMessages st)
  ∧ (sweep_loop now (voiceMessages st)).2 = size (stale now (voiceMessages st))
  ∧ sweep_loop now (voiceMessages st1) = (voiceMessages st1, 0%nat)
  ∧ (cleanupOldMessages now st1).2 = st1.
Proof.
  simpl.
  assert (voiceMessages (cleanupOldMessages now st).2 = fresh now (voiceMessages st)) as H1.
  { unfold cleanupOldMessages.
    pose proof (sweep_loop_map now (voiceMessages st)) as Hm.
    by destruct (sweep_loop now (voiceMessages st)). }
  assert (sweep_loop now (voiceMessages (cleanupOldMessages now st).2)
          = (voiceMessages (cleanupOldMessages now st).2, 0%nat)) as H2.
  { rewrite H1.
    pose proof (sweep_loop_map now (fresh now (voiceMessages st))) as Hm.
    pose proof (sweep_loop_count now (fresh now (voiceMessages st))) as Hc.
    rewrite fresh_of_fresh in Hm. rewrite stale_of_fresh, map_size_empty in Hc.
    destruct (sweep_loop now (fresh now (voiceMessages st))); simpl in *. congruence. }
  split; [done|]. split; [apply sweep_loop_count|]. split; [done|].
  unfold cleanupOldMessages at 1. rewrite H2. simpl.
  by destruct (cleanupOldMessages now st).2.
Qed.

Import Socket SocketExamples SocketFacts.





(** C6: when the guard [currentRoom && currentNickname] fails, both
    'send-message' and 'send-voice' do nothing but write one warning to
    the console: nothing is emitted to anyone (the sender included) and no
    state changes. *)
Theorem unjoined_send_is_dropped (sid : string) (w : World) (s : Session) :
  sessions w !! sid = Some s →
  joined s = None →
  (∀ (content : string) (tId : Z) (rnd : string) (ts : Z),
     let w' := on_send_message sid content tId rnd ts w in
     outbox w' = outbox w ∧ rooms w' = rooms w ∧ adapter w' = adapter w
     ∧ sessions w' = sessions w
     ∧ console w'
       = (console w ++ [warn_line ("[Socket] Message from unjoined user: " +:+ sid)])%list)
  ∧ (∀ (messageId url : string) (duration : option Z) (ts : Z),
     let w' := on_send_voice sid messageId url duration ts w in
     outbox w' = outbox w ∧ rooms w' = rooms w ∧ adapter w' = adapter w
     ∧ sessions w' = sessions w
     ∧ console w'
       = (console w
          ++ [warn_line ("[Socket] Voice message from unjoined user: " +:+ sid)])%list).
Proof.
  intros Hs Hj. split; intros; subst w'.
  - unfold on_send_message. by rewrite Hs, Hj.
  - unfold on_send_voice. by rewrite Hs, Hj.
Qed.






(** C1, evaluated where it fails: "a" and "b" are in "lobby" and "b" joins
    "den".  Afterwards "b" is recorded in "den" only, and "lobby" holds
    just "a"; but the three events of the call are those of a join, and
    "a" is sent none of them: no 'user-left' reaches the room that was
    left.  Had "b" disconnected instead, "a" would have been sent
    'user-left' with the nickname of "b". *)
Theorem switching_rooms_sends_no_user_left :
  let before := run two_in_lobby in
  let after := run b_moves_on in
  let sent := drop (length (outbox before)) (outbox after) in
  sockets_of (room_of (rooms before) "lobby") = {["a"; "b"]}
  ∧ sockets_of (room_of (rooms after) "lobby") = {["a"]}
  ∧ sockets_of (room_of (rooms after) "den") = {["b"]}
  ∧ event <$> sent
    = [ nickname_assigned "Visitor1089"; user_joined "Visitor1089" 3000;
        participants_list ["Visitor1089"] ]
  ∧ inbox "a" sent = []
  ∧ inbox "a" (drop (length (outbox before))
                 (outbox (step before (disconnect "b" 3000))))
    = [ user_left "Guest5567" 3000 ].
Proof. vm_compute. repeat split; reflexivity. Qed.

(** * The theorems at work on concrete runs *)

Lemma reachable_two_in_lobby : reachable (run two_in_lobby).
Proof. by exists two_in_lobby. Defined.

Lemma reachable_apart_two_in_lobby : reachable_apart (run two_in_lobby).
Proof. exists two_in_lobby. split; [vm_compute; reflexivity|reflexivity]. Defined.




(** A socket that has connected and not joined sends text: nothing is emitted. *)
Lemma unjoined_send_is_dropped_witness :
  sessions (run [connection "a"]) !! "a"
    = Some {| currentRoom := None; currentNickname := None |}
  ∧ joined {| currentRoom := None; currentNickname := None |} = None
  ∧ outbox (on_send_message "a" "hi" 4000 "k3x9" 4001 (run [connection "a"]))
    = outbox (run [connection "a"]).
Proof.
  assert (sessions (run [connection "a"]) !! "a"
          = Some {| currentRoom := None; currentNickname := None |})
    as Hs by (vm_compute; reflexivity).
  assert (joined {| currentRoom := None; currentNickname := None |} = None)
    as Hj by reflexivity.
  split; [exact Hs|]. split; [exact Hj|].
  exact (proj1 (proj1 (unjoined_send_is_dropped "a" _ _ Hs Hj) "hi" 4000 "k3x9" 4001)).
Defined.



(** * Further properties of the code *)

(** ** The store and its endpoints *)

Module MoreStorageFacts.
Import Storage StorageFacts.

Lemma cleanup_map (now : Z) (st : Store) :
  voiceMessages (cleanupOldMessages now st).2 = fresh now (voiceMessages st).
Proof.
  unfold cleanupOldMessages.
  pose proof (sweep_loop_map now (voiceMessages st)) as Hm.
  by destruct (sweep_loop now (voiceMessages st)).
Qed.

Lemma fresh_lookup (now : Z) (m : gmap string VoiceRecord) (id : string) :
  fresh now m !! id
  = match m !! id with
    | Some rec => if decide (now - timestamp rec > maxAge) then None else Some rec
    | None => None
    end.
Proof.
  unfold fresh. rewrite map_lookup_filter.
  destruct (m !! id) as [rec|]; simpl; [|done].
  case_decide.
  - by rewrite option_guard_False by (simpl; tauto).
  - by rewrite option_guard_True.
Qed.

Lemma fresh_later (now now' : Z) (m : gmap string VoiceRecord) :
  (now ≤ now')%Z → fresh now' (fresh now m) = fresh now' m.
Proof.
  intros Hle. apply map_eq. intros id. rewrite !fresh_lookup.
  destruct (m !! id) as [rec|]; [|done].
  repeat case_decide; try done. lia.
Qed.

End MoreStorageFacts.

Import MoreStorageFacts.

(** X1: storing under one id changes nothing for any other id: what a
    lookup of the other id returns is what it returned before. *)
Theorem put_leaves_other_ids (st : Store) (id id' : string) (buf : list Byte.byte)
    (mime : string) (now : Z) :
  id ≠ id' →
  (getVoiceMessage id' (storeVoiceMessage id buf mime now st)).1
  = (getVoiceMessage id' st).1.
Proof.
  intros Hne. unfold getVoiceMessage, storeVoiceMessage; simpl.
  by apply lookup_insert_ne.
Qed.

Lemma put_leaves_other_ids_witness :
  "voice-2" ≠ "voice-1"
  ∧ (getVoiceMessage "voice-1"
       (storeVoiceMessage "voice-2" [] "audio/ogg" 7 one_clip)).1
    = (getVoiceMessage "voice-1" one_clip).1.
Proof.
  assert ("voice-2" ≠ "voice-1") as Hne by discriminate.
  split; [exact Hne|].
  exact (put_leaves_other_ids one_clip "voice-2" "voice-1" [] "audio/ogg" 7 Hne).
Defined.

(** X2: a second store under the same id replaces the first: the lookup
    returns the second bytes, type and time, the map is the one a single
    store of the second clip would have given, and no record is added. *)
Theorem last_write_wins (st : Store) (id : string) (buf1 buf2 : list Byte.byte)
    (mime1 mime2 : string) (t1 t2 : Z) :
  let st1 := storeVoiceMessage id buf1 mime1 t1 st in
  let st2 := storeVoiceMessage id buf2 mime2 t2 st1 in
  (getVoiceMessage id st2).1
    = Some {| buffer := buf2; mimeType := mime2; timestamp := t2 |}
  ∧ voiceMessages st2 = voiceMessages (storeVoiceMessage id buf2 mime2 t2 st)
  ∧ size (voiceMessages st2) = size (voiceMessages st1).
Proof.
  cbv zeta. unfold getVoiceMessage, storeVoiceMessage; simpl.
  split; [apply lookup_insert_eq|]. split; [apply insert_insert_eq|].
  rewrite insert_insert_eq.
  destruct (voiceMessages st !! id) as [old|] eqn:Hold.
  - by rewrite !map_size_insert_Some.
  - by rewrite !map_size_insert_None.
Qed.

(** X3: the retention test is strict.  A clip stored at time [t] is still
    there after a sweep at time [now] exactly when [now - t] is at most 24
    hours; one millisecond more and the sweep removes it. *)
Theorem retention_is_strict (st : Store) (id : string) (buf : list Byte.byte)
    (mime : string) (t now : Z) :
  (getVoiceMessage id
     (cleanupOldMessages now (storeVoiceMessage id buf mime t st)).2).1
  = if decide (now - t ≤ 24 * 60 * 60 * 1000)%Z
    then Some {| buffer := buf; mimeType := mime; timestamp := t |}
    else None.
Proof.
  unfold getVoiceMessage; simpl. rewrite cleanup_map, fresh_lookup.
  unfold storeVoiceMessage; simpl. rewrite lookup_insert_eq. simpl.
  unfold maxAge. repeat case_decide; try done; lia.
Qed.

(** X4: a sweep that ran earlier makes no difference to a later one: the
    records left after sweeping at [now] and then at [now'] are those left
    by the sweep at [now'] alone, and the two counts add up to its count. *)
Theorem later_sweep_subsumes_earlier (now now' : Z) (st : Store) :
  (now ≤ now')%Z →
  let st1 := (cleanupOldMessages now st).2 in
  voiceMessages (cleanupOldMessages now' st1).2
  = voiceMessages (cleanupOldMessages now' st).2
  ∧ ((sweep_loop now (voiceMessages st)).2 + (sweep_loop now' (voiceMessages st1)).2
     = (sweep_loop now' (voiceMessages st)).2)%nat.
Proof.
  intros Hle. cbv zeta. rewrite !cleanup_map.
  split; [by apply fresh_later|].
  rewrite !sweep_loop_count.
  pose proof (stale_fresh_size now (voiceMessages st)).
  pose proof (stale_fresh_size now' (voiceMessages st)).
  pose proof (stale_fresh_size now' (fresh now (voiceMessages st))) as H3.
  rewrite fresh_later in H3 by done. lia.
Qed.

Lemma later_sweep_subsumes_earlier_witness :
  (hours 23 ≤ hours 25)%Z
  ∧ voiceMessages (cleanupOldMessages (hours 25)
                     (cleanupOldMessages (hours 23) one_clip).2).2
    = voiceMessages (cleanupOldMessages (hours 25) one_clip).2.
Proof.
  assert (hours 23 ≤ hours 25)%Z as Hle by (vm_compute; discriminate).
  split; [exact Hle|].
  exact (proj1 (later_sweep_subsumes_earlier (hours 23) (hours 25) one_clip Hle)).
Defined.

Import Server.

(** X5: an upload followed by a download.  The upload answers 200 with an
    id of the form voice-<clock>-<random> and the url "/voice/" followed by
    that id; asking the download endpoint for that id then answers 200
    with exactly the uploaded bytes, and sets Content-Type to the uploaded
    type and Content-Length to the number of bytes. *)
Theorem upload_then_download (f : UploadedFile) (tId : Z) (rnd : string) (tStore : Z)
    (st : Store) :
  let messageId := "voice-" +:+ show_Z tId +:+ "-" +:+ rnd in
  let up := upload_voice (Some f) tId rnd tStore st in
  let down := get_voice messageId up.2 in
  up.1 = {| status := 200; headers_set := [];
            body := json_uploaded messageId ("/voice/" +:+ messageId) |}
  ∧ down.1
    = {| status := 200;
         headers_set :=
           [ ("Content-Type", mimetype f);
             ("Content-Length", show_nat (length (file_buffer f)));
             ("Cache-Control", "public, max-age=86400") ];
         body := raw (file_buffer f) |}
  ∧ voiceMessages down.2 = voiceMessages up.2.
Proof.
  cbv zeta. split; [done|].
  unfold get_voice, getVoiceMessage, upload_voice, storeVoiceMessage; simpl.
  rewrite lookup_insert_eq. simpl. done.
Qed.

(** X6: the misses of the two endpoints.  The download endpoint answers
    404 exactly when the id is not in the store, and then leaves the store
    as it is, console included; it never changes a record.  An upload
    request without a file is answered 400 and stores nothing. *)
Theorem endpoint_misses (st : Store) (id : string) (tId : Z) (rnd : string)
    (tStore : Z) :
  (status (get_voice id st).1 = 404%nat ↔ voiceMessages st !! id = None)
  ∧ (status (get_voice id st).1 = 404%nat → (get_voice id st).2 = st)
  ∧ voiceMessages (get_voice id st).2 = voiceMessages st
  ∧ upload_voice None tId rnd tStore st
    = ({| status := 400; headers_set := [];
          body := json_error "No audio file provided" |}, st).
Proof.
  unfold get_voice, getVoiceMessage.
  destruct (voiceMessages st !! id) as [vm|]; simpl; repeat split; done.
Qed.

(** ** The handlers and the registry *)

#[local] Set Warnings "-abstract-large-number".

Module MoreSocketFacts.
Import Socket SocketFacts.

Lemma seat_is_Some (w : World) (x r : string) :
  Inv w →
  is_Some (seat (sessions w) x r)
  ↔ ∃ s, sessions w !! x = Some s ∧ currentRoom s = Some r.
Proof.
  intros Hw. unfold seat. destruct (sessions w !! x) as [s|] eqn:Hs; simpl.
  - split.
    + intros [n Hn]. apply seat_of_Some in Hn as [Hc _]. by exists s.
    + intros (s' & [= <-] & Hc). pose proof (inv_session w Hw x s Hs) as Hok.
      unfold session_ok in Hok. rewrite Hc in Hok.
      destruct (currentNickname s) as [n|] eqn:Hn; [|done].
      exists n. by apply seat_of_Some.
  - split; [by intros [? ?]|]. by intros (s' & [=] & _).
Qed.

Lemma entries_at_most_one (w : World) (sid r : string) :
  Inv w → r ≠ "" → (length (entries_of sid (room_of (rooms w) r)) ≤ 1)%nat.
Proof.
  intros Hw Hr. rewrite (inv_entries w Hw sid r Hr).
  destruct (seat (sessions w) sid r); simpl; lia.
Qed.

Lemma NoDup_sockets (l : list User) :
  (∀ sid, (length (entries_of sid l) ≤ 1)%nat) → NoDup (socketId <$> l).
Proof.
  induction l as [|u l IH]; intros Hone; simpl; [constructor|].
  constructor.
  - pose proof (Hone (socketId u)) as Hu. unfold entries_of in Hu.
    rewrite filter_cons_True in Hu by done. simpl in Hu.
    assert (entries_of (socketId u) l = []) as Hnil.
    { unfold entries_of. destruct (filter _ l); [done|simpl in Hu; lia]. }
    apply entries_of_nil_iff in Hnil. unfold sockets_of in Hnil.
    by rewrite elem_of_list_to_set in Hnil.
  - apply IH. intros sid. pose proof (Hone sid) as Hs. unfold entries_of in *.
    rewrite filter_cons in Hs. destruct (decide (socketId u = sid)); simpl in Hs; lia.
Qed.

Lemma disconnect_outbox sid now w s room nick :
  sessions w !! sid = Some s →
  joined s = Some (room, nick) →
  outbox (on_disconnect sid now w)
  = (outbox w ++
     [ {| target := to_room_except room sid;
          recipients :=
            (members (adapter w) room ∖ {[sid]}) ∖ (members (adapter w) sid ∖ {[sid]});
          event := user_left nick now;
          registry := rooms (on_disconnect sid now w) |} ])%list.
Proof.
  intros Hs Hj. unfold on_disconnect. rewrite Hs, Hj. simpl.
  rewrite remove_outbox, remove_adapter. simpl. by rewrite !members_leave_all.
Qed.

Lemma to_uint_not_Nil (n : nat) : Nat.to_uint n ≠ Decimal.Nil.
Proof.
  rewrite <- (Unsigned.of_to n) at 1. rewrite Unsigned.to_of.
  unfold Decimal.unorm. by destruct (Decimal.nzhead (Nat.to_uint n)).
Qed.

Lemma show_nat_inj (n m : nat) : show_nat n = show_nat m → n = m.
Proof.
  unfold show_nat. intros H. apply Unsigned.to_uint_inj.
  apply (f_equal NilZero.uint_of_string) in H.
  rewrite !NilZero.usu in H by apply to_uint_not_Nil. congruence.
Qed.

Lemma four_digits (draw : nat) :
  (draw < 9000)%nat → String.length (show_nat (draw + 1000)) = 4%nat.
Proof.
  intros Hlt.
  assert (forallb (λ d, String.length (show_nat (d + 1000)) =? 4)%nat (seq 0 9000) = true)
    as Hall by (vm_compute; reflexivity).
  rewrite forallb_forall in Hall.
  apply Nat.eqb_eq, Hall, in_seq. lia.
Qed.

End MoreSocketFacts.

Import MoreSocketFacts.

(** X7: in a world reached with room names and socket ids kept apart,
    'send-voice' from a socket whose guard passes emits exactly one
    'new-message' addressed to the whole room; it reaches every socket the
    registry lists for the room, the sender among them.  The message takes
    the caller's [messageId] as its id and the caller's url, has type
    voice, a duration of 0 when none was given, the sender's nickname and
    the clock reading; no state changes. *)
Theorem send_voice_reaches_the_room (sid messageId url : string) (duration : option Z)
    (ts : Z) (w : World) (s : Session) (room nick : string) :
  reachable_apart w →
  sessions w !! sid = Some s →
  joined s = Some (room, nick) →
  let w' := on_send_voice sid messageId url duration ts w in
  outbox w'
  = (outbox w ++
     [ {| target := to_room room;
          recipients := sockets_of (room_of (rooms w) room);
          event := new_message
            {| msg_id := messageId;
               msg_type := voice;
               msg_content := None;
               msg_url := Some url;
               msg_duration :=
                 Some (match duration with Some d => d | None => 0 end);
               msg_nickname := nick;
               msg_timestamp := ts |};
          registry := rooms w |} ])%list
  ∧ sid ∈ sockets_of (room_of (rooms w) room)
  ∧ rooms w' = rooms w ∧ adapter w' = adapter w ∧ sessions w' = sessions w.
Proof.
  intros Hw%reachable_apart_Apart Hs Hj. cbv zeta.
  pose proof (Apart_joined w sid s room nick Hw Hs Hj) as (Hroom & Hfree & Hseat).
  assert (sockets_of (room_of (rooms w) room) = members (adapter w) room) as Hsock
    by (by apply Apart_sockets_of).
  unfold on_send_voice. rewrite Hs, Hj. simpl. rewrite Hsock.
  repeat split; try done.
  apply (apart_adapter w Hw sid room Hroom). right. rewrite Hseat. by eexists.
Qed.

Lemma send_voice_reaches_the_room_witness :
  reachable_apart (run two_in_lobby)
  ∧ sessions (run two_in_lobby) !! "b"
    = Some {| currentRoom := Some "lobby"; currentNickname := Some "Guest5567" |}
  ∧ joined {| currentRoom := Some "lobby"; currentNickname := Some "Guest5567" |}
    = Some ("lobby", "Guest5567")
  ∧ "b" ∈ sockets_of (room_of (rooms (run two_in_lobby)) "lobby").
Proof.
  assert (sessions (run two_in_lobby) !! "b"
          = Some {| currentRoom := Some "lobby"; currentNickname := Some "Guest5567" |})
    as Hs by (vm_compute; reflexivity).
  assert (joined {| currentRoom := Some "lobby"; currentNickname := Some "Guest5567" |}
          = Some ("lobby", "Guest5567")) as Hj by (vm_compute; reflexivity).
  split; [exact reachable_apart_two_in_lobby|]. split; [exact Hs|]. split; [exact Hj|].
  exact (proj1 (proj2 (send_voice_reaches_the_room "b" "voice-9-abc" "/voice/voice-9-abc"
                         None 4001 _ _ _ _ reachable_apart_two_in_lobby Hs Hj))).
Defined.

(** X8: a text message stays in its room.  In a world reached with room
    names and socket ids kept apart, the one event 'send-message' emits is
    delivered to a socket exactly when that socket is a live connection
    whose current room is the sender's room. *)
Theorem message_stays_in_its_room (sid content : string) (tId : Z) (rnd : string)
    (ts : Z) (w : World) (s : Session) (room nick : string) :
  reachable_apart w →
  sessions w !! sid = Some s →
  joined s = Some (room, nick) →
  let w' := on_send_message sid content tId rnd ts w in
  ∃ e : Emission,
    drop (length (outbox w)) (outbox w') = [e]
    ∧ ∀ x : string,
        x ∈ recipients e
        ↔ ∃ s' : Session, sessions w !! x = Some s' ∧ currentRoom s' = Some room.
Proof.
  intros Hw%reachable_apart_Apart Hs Hj. cbv zeta.
  pose proof (Apart_joined w sid s room nick Hw Hs Hj) as (Hroom & Hfree & Hseat).
  unfold on_send_message. rewrite Hs, Hj. simpl. rewrite drop_app_length.
  eexists. split; [done|]. simpl. intros x.
  rewrite (apart_adapter w Hw x room Hroom).
  rewrite <- (seat_is_Some w x room (apart_inv w Hw)).
  split; [|tauto]. intros [[-> [s' Hs']]|Hx]; [congruence|done].
Qed.

Lemma reachable_apart_b_moves_on : reachable_apart (run b_moves_on).
Proof. exists b_moves_on. split; [vm_compute; reflexivity|reflexivity]. Defined.

Lemma message_stays_in_its_room_witness :
  reachable_apart (run b_moves_on)
  ∧ sessions (run b_moves_on) !! "a"
    = Some {| currentRoom := Some "lobby"; currentNickname := Some "User1234" |}
  ∧ joined {| currentRoom := Some "lobby"; currentNickname := Some "User1234" |}
    = Some ("lobby", "User1234")
  ∧ ∃ e : Emission,
      drop (length (outbox (run b_moves_on)))
        (outbox (on_send_message "a" "hi" 4000 "k3x9" 4001 (run b_moves_on))) = [e]
      ∧ ∀ x : string,
          x ∈ recipients e
          ↔ ∃ s' : Session,
              sessions (run b_moves_on) !! x = Some s' ∧ currentRoom s' = Some "lobby".
Proof.
  assert (sessions (run b_moves_on) !! "a"
          = Some {| currentRoom := Some "lobby"; currentNickname := Some "User1234" |})
    as Hs by (vm_compute; reflexivity).
  assert (joined {| currentRoom := Some "lobby"; currentNickname := Some "User1234" |}
          = Some ("lobby", "User1234")) as Hj by (vm_compute; reflexivity).
  split; [exact reachable_apart_b_moves_on|]. split; [exact Hs|]. split; [exact Hj|].
  exact (message_stays_in_its_room "a" "hi" 4000 "k3x9" 4001 _ _ _ _
           reachable_apart_b_moves_on Hs Hj).
Defined.

(** X9: in every world reached with room names and socket ids kept
    apart, the registry and Socket.IO agree on who is in a room whose name
    is not empty and not the id of a live socket. *)
Theorem registry_matches_socket_io (w : World) (r : string) :
  reachable_apart w → r ≠ "" → sessions w !! r = None →
  sockets_of (room_of (rooms w) r) = members (adapter w) r.
Proof. intros Hw%reachable_apart_Apart Hr Hfree. by apply Apart_sockets_of. Qed.

Lemma registry_matches_socket_io_witness :
  reachable_apart (run b_moves_on) ∧ "den" ≠ ""
  ∧ sessions (run b_moves_on) !! "den" = None
  ∧ sockets_of (room_of (rooms (run b_moves_on)) "den")
    = members (adapter (run b_moves_on)) "den".
Proof.
  assert ("den" ≠ "") as Hne by discriminate.
  assert (sessions (run b_moves_on) !! "den" = None) as Hfree
    by (vm_compute; reflexivity).
  split; [exact reachable_apart_b_moves_on|]. split; [exact Hne|].
  split; [exact Hfree|].
  exact (registry_matches_socket_io _ "den" reachable_apart_b_moves_on Hne Hfree).
Defined.

(** X10: in every world reached with room names and socket ids kept
    apart, a room whose name is not empty and not the id of a live socket
    lists no socket twice, so the length of the participant list of the
    room is the number of sockets Socket.IO has in it. *)
Theorem one_entry_per_connection (w : World) (r : string) :
  reachable_apart w → r ≠ "" → sessions w !! r = None →
  NoDup (socketId <$> room_of (rooms w) r)
  ∧ length (nickname <$> room_of (rooms w) r) = size (members (adapter w) r).
Proof.
  intros Hw%reachable_apart_Apart Hr Hfree.
  assert (NoDup (socketId <$> room_of (rooms w) r)) as Hnd.
  { apply NoDup_sockets. intros sid. apply entries_at_most_one; [apply Hw|done]. }
  split; [done|].
  rewrite <- (Apart_sockets_of w r Hw Hr Hfree). unfold sockets_of.
  rewrite size_list_to_set by done. by rewrite !length_fmap.
Qed.

Lemma one_entry_per_connection_witness :
  reachable_apart (run two_in_lobby) ∧ "lobby" ≠ ""
  ∧ sessions (run two_in_lobby) !! "lobby" = None
  ∧ NoDup (socketId <$> room_of (rooms (run two_in_lobby)) "lobby").
Proof.
  assert ("lobby" ≠ "") as Hne by discriminate.
  assert (sessions (run two_in_lobby) !! "lobby" = None) as Hfree
    by (vm_compute; reflexivity).
  split; [exact reachable_apart_two_in_lobby|]. split; [exact Hne|].
  split; [exact Hfree|].
  exact (proj1 (one_entry_per_connection _ "lobby" reachable_apart_two_in_lobby
                  Hne Hfree)).
Defined.

(** X11: in every reachable world an entry in a room with a non-empty
    name belongs to a live connection whose current room is that room and
    whose current nickname is the entry's: a connection sits in one such
    room at a time, and a closed connection is in none. *)
Theorem every_entry_is_a_live_member (w : World) (r : string) (u : User) :
  reachable w → r ≠ "" →
  u ∈ room_of (rooms w) r →
  sessions w !! socketId u
  = Some {| currentRoom := Some r; currentNickname := Some (nickname u) |}.
Proof.
  intros Hw%reachable_Inv Hr Hu.
  assert (u ∈ entries_of (socketId u) (room_of (rooms w) r)) as Hin
    by (by apply list_elem_of_filter).
  rewrite (inv_entries w Hw _ r Hr) in Hin. unfold seat in Hin.
  destruct (sessions w !! socketId u) as [s|]; simpl in Hin;
    [|by apply elem_of_nil in Hin].
  destruct (seat_of s r) as [n|] eqn:Hn; simpl in Hin; [|by apply elem_of_nil in Hin].
  apply list_elem_of_singleton in Hin. apply seat_of_Some in Hn as [Hc Hn].
  destruct s as [cr cn]; simpl in *. rewrite Hc, Hn.
  destruct u as [usid unick]; simpl in *. by injection Hin as ->.
Qed.

Lemma every_entry_is_a_live_member_witness :
  reachable (run two_in_lobby) ∧ "lobby" ≠ ""
  ∧ {| socketId := "b"; nickname := "Guest5567" |}
      ∈ room_of (rooms (run two_in_lobby)) "lobby"
  ∧ sessions (run two_in_lobby) !! "b"
    = Some {| currentRoom := Some "lobby"; currentNickname := Some "Guest5567" |}.
Proof.
  assert ("lobby" ≠ "") as Hne by discriminate.
  assert ({| socketId := "b"; nickname := "Guest5567" |}
            ∈ room_of (rooms (run two_in_lobby)) "lobby") as Hin.
  { vm_compute. right. left. }
  split; [exact reachable_two_in_lobby|]. split; [exact Hne|]. split; [exact Hin|].
  exact (every_entry_is_a_live_member _ "lobby" _ reachable_two_in_lobby Hne Hin).
Defined.

(** X12: in a reachable world, removeUserFromRoom for a socket that has no
    entry in the room, or for a room that does not exist, changes
    nothing: no room, no console line, nothing else. *)
Theorem removing_a_stranger_changes_nothing (w : World) (r sid : string) :
  reachable w →
  sid ∉ sockets_of (room_of (rooms w) r) →
  removeUserFromRoom r sid w = w.
Proof.
  intros Hw%reachable_Inv Hno. apply entries_of_nil_iff in Hno.
  unfold removeUserFromRoom, room_of in *.
  destruct (rooms w !! r) as [room|] eqn:Hroom; [|done]. simpl in Hno.
  rewrite delete_first_absent by done.
  pose proof (inv_nonempty w Hw r room Hroom) as Hne.
  destruct room as [|u room]; [done|]. simpl.
  destruct w as [rs ad ss out con]. unfold with_rooms; simpl in *.
  by rewrite insert_id.
Qed.

Lemma removing_a_stranger_changes_nothing_witness :
  reachable (run two_in_lobby)
  ∧ ("zed" ∉ sockets_of (room_of (rooms (run two_in_lobby)) "lobby"))
  ∧ removeUserFromRoom "lobby" "zed" (run two_in_lobby) = run two_in_lobby.
Proof.
  assert ("zed" ∉ sockets_of (room_of (rooms (run two_in_lobby)) "lobby")) as Hno.
  { apply (bool_decide_unpack _). vm_compute. reflexivity. }
  split; [exact reachable_two_in_lobby|]. split; [exact Hno|].
  exact (removing_a_stranger_changes_nothing _ "lobby" "zed" reachable_two_in_lobby Hno).
Defined.

(** X13: two generated nicknames are equal only if both random draws were
    equal: the same prefix was picked and the same number drawn. *)
Theorem nicknames_collide_only_on_equal_draws (pick pick' draw draw' : nat) :
  (pick < 5)%nat → (pick' < 5)%nat →
  generateNickname pick draw = generateNickname pick' draw' →
  pick = pick' ∧ draw = draw'.
Proof.
  intros Hp Hp' Heq. unfold generateNickname, prefixes in Heq.
  assert (∀ p : nat, (p < 5)%nat → p = 0 ∨ p = 1 ∨ p = 2 ∨ p = 3 ∨ p = 4)%nat
    as Hcase by lia.
  destruct (Hcase pick Hp) as [->|[->|[->|[->| ->]]]],
           (Hcase pick' Hp') as [->|[->|[->|[->| ->]]]];
    simpl in Heq; try discriminate;
    (split; [done|]); injection Heq as Heq; apply show_nat_inj in Heq; lia.
Qed.

Lemma nicknames_collide_only_on_equal_draws_witness :
  (1 < 5)%nat ∧ generateNickname 1 4567 = generateNickname 1 4567
  ∧ 1%nat = 1%nat ∧ 4567%nat = 4567%nat.
Proof.
  assert (1 < 5)%nat as Hp by lia.
  assert (generateNickname 1 4567 = generateNickname 1 4567) as Heq by reflexivity.
  split; [exact Hp|]. split; [exact Heq|].
  exact (nicknames_collide_only_on_equal_draws 1 1 4567 4567 Hp Hp Heq).
Defined.

(** X14: for draws in range (an index into the five prefixes, a number
    below 9000) the nickname is one of the five prefixes followed by the
    decimal rendering of a number from 1000 to 9999, which has exactly
    four characters. *)
Theorem nickname_format (pick draw : nat) :
  (pick < 5)%nat → (draw < 9000)%nat →
  ∃ (prefix : string) (number : nat),
    generateNickname pick draw = prefix +:+ show_nat number
    ∧ prefix ∈ prefixes
    ∧ (1000 ≤ number ≤ 9999)%nat
    ∧ String.length (show_nat number) = 4%nat.
Proof.
  intros Hp Hd. exists (nth pick prefixes "undefined"), (draw + 1000)%nat.
  assert (Z.of_nat 9000 = 9000%Z) as H9000 by (vm_compute; reflexivity).
  assert (Z.of_nat 9999 = 9999%Z) as H9999 by (vm_compute; reflexivity).
  split; [done|]. split; [|split; [lia|by apply four_digits]].
  apply list_elem_of_In, nth_In. simpl. lia.
Qed.

Lemma nickname_format_witness :
  (1 < 5)%nat ∧ (4567 < 9000)%nat
  ∧ ∃ (prefix : string) (number : nat),
      generateNickname 1 4567 = prefix +:+ show_nat number
      ∧ prefix ∈ prefixes
      ∧ (1000 ≤ number ≤ 9999)%nat
      ∧ String.length (show_nat number) = 4%nat.
Proof.
  assert (1 < 5)%nat as Hp by lia.
  assert (4567 < 9000)%nat as Hd by (apply Nat.ltb_lt; vm_compute; reflexivity).
  split; [exact Hp|]. split; [exact Hd|].
  exact (nickname_format 1 4567 Hp Hd).
Defined.

(** X15: the room whose name is the empty string is never left.  For a
    connection whose current room is that room, a 'join-room' to another
    room leaves the nameless room's entries and Socket.IO membership as
    they were, and a 'disconnect' changes no room and emits nothing. *)
Theorem nameless_room_keeps_its_entries (sid : string) (w : World) (s : Session) :
  sessions w !! sid = Some s →
  currentRoom s = Some "" →
  (∀ (roomId : string) (pick draw : nat) (now : Z),
     roomId ≠ "" →
     let w' := on_join_room sid roomId pick draw now w in
     room_of (rooms w') "" = room_of (rooms w) ""
     ∧ members (adapter w') "" = members (adapter w) "")
  ∧ (∀ now : Z,
       rooms (on_disconnect sid now w) = rooms w
       ∧ outbox (on_disconnect sid now w) = outbox w).
Proof.
  intros Hs Hc. split.
  - intros roomId pick draw now Hne. cbv zeta.
    rewrite (join_rooms _ _ _ _ _ _ s), (join_adapter _ _ _ _ _ _ s) by done.
    rewrite add_user_room_of, members_join, !decide_False by done.
    unfold leave_previous. rewrite Hc. done.
  - intros now. unfold on_disconnect. rewrite Hs.
    assert (joined s = None) as ->
      by (unfold joined; rewrite Hc; by destruct (currentNickname s)).
    done.
Qed.

Lemma nameless_room_keeps_its_entries_witness :
  sessions (run [connection "a"; join_room "a" "" 0 234 1000]) !! "a"
    = Some {| currentRoom := Some ""; currentNickname := Some "User1234" |}
  ∧ currentRoom {| currentRoom := Some ""; currentNickname := Some "User1234" |}
    = Some ""
  ∧ rooms (on_disconnect "a" 3000 (run [connection "a"; join_room "a" "" 0 234 1000]))
    = rooms (run [connection "a"; join_room "a" "" 0 234 1000]).
Proof.
  assert (sessions (run [connection "a"; join_room "a" "" 0 234 1000]) !! "a"
          = Some {| currentRoom := Some ""; currentNickname := Some "User1234" |})
    as Hs by (vm_compute; reflexivity).
  assert (currentRoom {| currentRoom := Some ""; currentNickname := Some "User1234" |}
          = Some "") as Hc by reflexivity.
  split; [exact Hs|]. split; [exact Hc|].
  exact (proj1 (proj2 (nameless_room_keeps_its_entries "a" _ _ Hs Hc) 3000)).
Defined.

(** ** Server and client together *)

Import Client.

(** X16: what the joining client ends up showing.  In a world reached
    with room names and socket ids kept apart, the joiner is sent the
    first and the last of the three events of its 'join-room' call; after
    them its view shows the assigned nickname and, as participants, the
    nicknames of the room in the registry's order, its own included.  Its
    message list is untouched. *)
Theorem joiner_sees_the_room (sid roomId : string) (pick draw : nat) (now : Z)
    (w : World) (s : Session) (v : View) :
  reachable_apart w →
  sessions w !! sid = Some s →
  let w' := on_join_room sid roomId pick draw now w in
  let nick := generateNickname pick draw in
  let sent := drop (length (outbox w)) (outbox w') in
  inbox sid sent
  = [ nickname_assigned nick;
      participants_list (nickname <$> room_of (rooms w') roomId) ]
  ∧ replay v (inbox sid sent)
    = {| shown_nickname := Some nick;
         participants := nickname <$> room_of (rooms w') roomId;
         messages := messages v |}
  ∧ nick ∈ nickname <$> room_of (rooms w') roomId.
Proof.
  intros Hw%reachable_apart_Apart Hs. cbv zeta.
  pose proof (join_outbox sid roomId pick draw now w s Hs) as Hout.
  cbv zeta in Hout. rewrite Hout, drop_app_length. clear Hout.
  assert (sid ∈ members (adapter (on_join_room sid roomId pick draw now w)) sid)
    as Hown.
  { rewrite (join_adapter _ _ _ _ _ _ s), members_join, leave_previous_members by done.
    assert (¬ leaving s sid) as Hl.
    { intros [Hc _]. pose proof (apart_rooms w Hw sid s sid Hs Hc). congruence. }
    rewrite (decide_False (P:=leaving s sid)) by done.
    rewrite (Apart_own_room w sid s) by done.
    case_decide; rewrite ?elem_of_union, !elem_of_singleton; tauto. }
  unfold inbox.
  rewrite filter_cons_True by (simpl; by apply elem_of_singleton).
  rewrite filter_cons_False by (simpl; rewrite elem_of_difference; tauto).
  rewrite filter_cons_True by (simpl; by apply elem_of_singleton).
  rewrite filter_nil. simpl. split; [done|]. split; [done|].
  rewrite (join_rooms _ _ _ _ _ _ s), add_user_room_of, decide_True by done.
  rewrite fmap_app. apply elem_of_app. right. simpl. left.
Qed.

Lemma joiner_sees_the_room_witness :
  reachable_apart (run two_in_lobby)
  ∧ sessions (run two_in_lobby) !! "b"
    = Some {| currentRoom := Some "lobby"; currentNickname := Some "Guest5567" |}
  ∧ generateNickname 2 89
      ∈ nickname <$> room_of (rooms (on_join_room "b" "den" 2 89 3000 (run two_in_lobby)))
                       "den".
Proof.
  assert (sessions (run two_in_lobby) !! "b"
          = Some {| currentRoom := Some "lobby"; currentNickname := Some "Guest5567" |})
    as Hs by (vm_compute; reflexivity).
  split; [exact reachable_apart_two_in_lobby|]. split; [exact Hs|].
  exact (proj2 (proj2 (joiner_sees_the_room "b" "den" 2 89 3000 _ _ initial_view
                         reachable_apart_two_in_lobby Hs))).
Defined.

(** X17: what the others see of a join.  In a world reached with room
    names and socket ids kept apart, and for a room whose name is not
    empty and not the id of a live socket, a socket other than the joiner
    that is in the room being joined is sent exactly one event of the
    call, 'user-joined' with the new nickname, and its view appends that
    nickname to its participants. *)
Theorem others_see_the_join (sid r : string) (pick draw : nat) (now : Z)
    (w : World) (s : Session) (x : string) (v : View) :
  reachable_apart w →
  sessions w !! sid = Some s →
  r ≠ "" → sessions w !! r = None → x ≠ sid →
  x ∈ sockets_of (room_of (rooms w) r) →
  let w' := on_join_room sid r pick draw now w in
  let nick := generateNickname pick draw in
  let sent := drop (length (outbox w)) (outbox w') in
  inbox x sent = [ user_joined nick now ]
  ∧ participants (replay v (inbox x sent)) = (participants v ++ [nick])%list.
Proof.
  intros Hw%reachable_apart_Apart Hs Hr Hfree Hx Hin. cbv zeta.
  rewrite Apart_sockets_of in Hin by done.
  pose proof (join_outbox sid r pick draw now w s Hs) as Hout.
  cbv zeta in Hout. rewrite Hout, drop_app_length. clear Hout.
  assert (Apart (on_join_room sid r pick draw now w)) as Hw'.
  { apply Apart_join_room; [done|]. simpl. by apply bool_decide_eq_true. }
  assert (members (adapter (on_join_room sid r pick draw now w)) sid = {[sid]})
    as Hown.
  { eapply Apart_own_room; [done|].
    rewrite (join_sessions _ _ _ _ _ _ s) by done. apply lookup_insert_eq. }
  assert (x ∈ members (adapter (on_join_room sid r pick draw now w)) r) as Hmem.
  { rewrite (join_adapter _ _ _ _ _ _ s), members_join, decide_True by done.
    rewrite leave_previous_members.
    case_decide; rewrite elem_of_union, ?elem_of_difference, !elem_of_singleton; tauto. }
  unfold inbox.
  rewrite filter_cons_False by (simpl; rewrite elem_of_singleton; tauto).
  rewrite filter_cons_True
    by (simpl; rewrite Hown, elem_of_difference, elem_of_singleton; tauto).
  rewrite filter_cons_False by (simpl; rewrite elem_of_singleton; tauto).
  done.
Qed.

Lemma others_see_the_join_witness :
  reachable_apart (run two_in_lobby)
  ∧ sessions (run two_in_lobby) !! "b"
    = Some {| currentRoom := Some "lobby"; currentNickname := Some "Guest5567" |}
  ∧ "lobby" ≠ "" ∧ sessions (run two_in_lobby) !! "lobby" = None ∧ "a" ≠ "b"
  ∧ "a" ∈ sockets_of (room_of (rooms (run two_in_lobby)) "lobby")
  ∧ inbox "a" (drop (length (outbox (run two_in_lobby)))
                 (outbox (on_join_room "b" "lobby" 2 89 3000 (run two_in_lobby))))
    = [ user_joined (generateNickname 2 89) 3000 ].
Proof.
  assert (sessions (run two_in_lobby) !! "b"
          = Some {| currentRoom := Some "lobby"; currentNickname := Some "Guest5567" |})
    as Hs by (vm_compute; reflexivity).
  assert ("lobby" ≠ "") as Hr by discriminate.
  assert (sessions (run two_in_lobby) !! "lobby" = None) as Hfree
    by (vm_compute; reflexivity).
  assert ("a" ≠ "b") as Hx by discriminate.
  assert ("a" ∈ sockets_of (room_of (rooms (run two_in_lobby)) "lobby")) as Hin.
  { apply (bool_decide_unpack _). vm_compute. reflexivity. }
  split; [exact reachable_apart_two_in_lobby|]. split; [exact Hs|].
  split; [exact Hr|]. split; [exact Hfree|]. split; [exact Hx|]. split; [exact Hin|].
  exact (proj1 (others_see_the_join "b" "lobby" 2 89 3000 _ _ "a" initial_view
                  reachable_apart_two_in_lobby Hs Hr Hfree Hx Hin)).
Defined.

(** X18: who hears of a disconnect.  In a world reached with room names
    and socket ids kept apart, when a socket whose guard passes
    disconnects, every other socket the registry lists for its room is
    sent exactly 'user-left' with its nickname, and every other socket,
    the leaver included, is sent nothing. *)
Theorem only_the_room_hears_the_leave (sid : string) (now : Z) (w : World)
    (s : Session) (room nick x : string) :
  reachable_apart w →
  sessions w !! sid = Some s →
  joined s = Some (room, nick) →
  let sent := drop (length (outbox w)) (outbox (on_disconnect sid now w)) in
  inbox x sent
  = if decide (x ∈ sockets_of (room_of (rooms w) room) ∧ x ≠ sid)
    then [ user_left nick now ] else [].
Proof.
  intros Hw%reachable_apart_Apart Hs Hj. cbv zeta.
  pose proof (Apart_joined w sid s room nick Hw Hs Hj) as (Hroom & Hfree & Hseat).
  rewrite (disconnect_outbox _ _ _ s room nick), drop_app_length by done.
  rewrite Apart_sockets_of by done. rewrite (Apart_own_room w sid s) by done.
  unfold inbox.
  case_decide as Hx.
  - rewrite filter_cons_True
      by (simpl; rewrite !elem_of_difference, elem_of_singleton; tauto).
    done.
  - rewrite filter_cons_False
      by (simpl; rewrite !elem_of_difference, elem_of_singleton; tauto).
    done.
Qed.

Lemma only_the_room_hears_the_leave_witness :
  reachable_apart (run two_in_lobby)
  ∧ sessions (run two_in_lobby) !! "b"
    = Some {| currentRoom := Some "lobby"; currentNickname := Some "Guest5567" |}
  ∧ joined {| currentRoom := Some "lobby"; currentNickname := Some "Guest5567" |}
    = Some ("lobby", "Guest5567")
  ∧ inbox "a" (drop (length (outbox (run two_in_lobby)))
                 (outbox (on_disconnect "b" 3000 (run two_in_lobby))))
    = if decide ("a" ∈ sockets_of (room_of (rooms (run two_in_lobby)) "lobby")
                 ∧ "a" ≠ "b")
      then [ user_left "Guest5567" 3000 ] else [].
Proof.
  assert (sessions (run two_in_lobby) !! "b"
          = Some {| currentRoom := Some "lobby"; currentNickname := Some "Guest5567" |})
    as Hs by (vm_compute; reflexivity).
  assert (joined {| currentRoom := Some "lobby"; currentNickname := Some "Guest5567" |}
          = Some ("lobby", "Guest5567")) as Hj by (vm_compute; reflexivity).
  split; [exact reachable_apart_two_in_lobby|]. split; [exact Hs|]. split; [exact Hj|].
  exact (only_the_room_hears_the_leave "b" 3000 _ _ _ _ "a"
           reachable_apart_two_in_lobby Hs Hj).
Defined.

(** X19: the client's participant list under 'user-joined' and
    'user-left'.  A 'user-left' removes every occurrence of the nickname,
    namesakes included, and keeps the other names in order; so a join
    followed by the leave of the same nickname gives back the list as it
    was only when no participant already had that nickname. *)
Theorem join_then_leave_on_the_client (v : View) (n : string) (t t' : Z) :
  (n ∉ participants (receive v (user_left n t')))
  ∧ participants (receive v (user_left n t')) = filter (λ p, p ≠ n) (participants v)
  ∧ (participants (replay v [user_joined n t; user_left n t']) = participants v
     ↔ n ∉ participants v).
Proof.
  assert (∀ l : list string, filter (λ p, p ≠ n) l = l ↔ n ∉ l) as Hfix.
  { induction l as [|p l IH]; [by split; [intros _ ?%elem_of_nil|]|].
    rewrite filter_cons, not_elem_of_cons. destruct (decide (p ≠ n)) as [Hp|Hp].
    - split.
      + intros [= Hl]. split; [congruence|]. by apply IH.
      + intros [_ Hl]. f_equal. by apply IH.
    - split; [|intros [Hnp _]; exfalso; apply Hp; congruence]. intros Hl. exfalso.
      assert (length (filter (λ p, p ≠ n) l) ≤ length l)%nat by apply length_filter.
      rewrite Hl in H. simpl in H. lia. }
  split; [|split].
  - simpl. rewrite list_elem_of_filter. tauto.
  - done.
  - simpl. rewrite filter_app, filter_cons_False, filter_nil, app_nil_r by tauto.
    apply Hfix.
Qed.

(** X20: what a join does to the guard of the send handlers.  After
    'join-room' the connection's guard passes, with the room joined and
    the new nickname, unless the room name is the empty string, in which
    case it fails (and a message sent next is dropped). *)
Theorem guard_after_join (sid roomId : string) (pick draw : nat) (now : Z)
    (w : World) (s : Session) :
  sessions w !! sid = Some s →
  let w' := on_join_room sid roomId pick draw now w in
  ∃ s' : Session,
    sessions w' !! sid = Some s'
    ∧ joined s'
      = if decide (roomId = "") then None
        else Some (roomId, generateNickname pick draw).
Proof.
  intros Hs. cbv zeta. eexists. split.
  - rewrite (join_sessions _ _ _ _ _ _ s) by done. apply lookup_insert_eq.
  - unfold joined, truthy; simpl.
    pose proof (generateNickname_nonempty pick draw).
    by repeat case_decide.
Qed.

Lemma guard_after_join_witness :
  sessions (run [connection "a"]) !! "a"
    = Some {| currentRoom := None; currentNickname := None |}
  ∧ ∃ s' : Session,
      sessions (on_join_room "a" "lobby" 0 234 1000 (run [connection "a"])) !! "a"
        = Some s'
      ∧ joined s'
        = if decide ("lobby" = "") then None
          else Some ("lobby", generateNickname 0 234).
Proof.
  assert (sessions (run [connection "a"]) !! "a"
          = Some {| currentRoom := None; currentNickname := None |})
    as Hs by (vm_compute; reflexivity).
  split; [exact Hs|].
  exact (guard_after_join "a" "lobby" 0 234 1000 _ _ Hs).
Defined.

(** X21: how long an uploaded clip can be downloaded.  After an upload
    stored at time [tStore] and a sweep at time [now], the download
    endpoint answers 200 for the clip's id if [now - tStore] is at most 24
    hours, and 404 otherwise. *)
Theorem uploaded_clip_lifetime (f : UploadedFile) (tId : Z) (rnd : string)
    (tStore now : Z) (st : Store) :
  let messageId := "voice-" +:+ show_Z tId +:+ "-" +:+ rnd in
  let uploaded := (upload_voice (Some f) tId rnd tStore st).2 in
  let swept := (cleanupOldMessages now uploaded).2 in
  status (get_voice messageId swept).1
  = if decide (now - tStore ≤ 24 * 60 * 60 * 1000)%Z then 200%nat else 404%nat.
Proof.
  cbv zeta. unfold get_voice, getVoiceMessage. rewrite cleanup_map, fresh_lookup.
  unfold upload_voice, storeVoiceMessage; simpl. rewrite lookup_insert_eq. simpl.
  unfold maxAge. repeat case_decide; try done; lia.
Qed.
